(** * Git storage layer of the update bot: lib/platform/git/storage.js

    A shallow embedding of the [Storage] class and a verification of its
    branch-level contract.

    The class is an orchestration layer: every method issues commands to a
    version-control engine (the [simple-git] handle [git]) and to the file
    system, and interprets their results or failures.  The embedding has
    three layers:

    - [Js]: the JavaScript string and value operations the file uses
      ([||], [+] on strings, [trim], [replace], [split], [filter(Boolean)]);
    - [Storage]: the methods of the class, written against an interface
      [Runtime] of the engine and of the host, in an error-and-state monad
      whose state holds the three closure variables [config], [git] and
      [repoDir];
    - [SimGit]: a reference model of the engine (a remote repository and
      working copies with objects, branches, remote-tracking refs, index
      and work tree), an instance of [Runtime], over which the properties
      that depend on what git does are proved. *)

From Stdlib Require Import Ascii String ZArith List Bool Lia.
From stdpp Require Import base option list strings gmap fin_maps.

Set Default Proof Using "Type".
Local Open Scope Z_scope.

(** ** JavaScript values and string operations *)

Module Js.

(** A value that is a string when present: a parameter that may be omitted,
    an optional field of the configuration object, an environment variable. *)
Inductive jstr : Type :=
| JUndefined
| JNull
| JStr (s : string).

#[global] Instance jstr_eq_dec : EqDecision jstr.
Proof. solve_decision. Defined.

(** [Boolean(v)]: [undefined], [null] and the empty string are falsy. *)
Definition truthy (v : jstr) : bool :=
  match v with
  | JStr s => if decide (s = "") then false else true
  | _ => false
  end.

(** [a || b] *)
Definition or_else (a b : jstr) : jstr := if truthy a then a else b.

(** [String(v)], the coercion applied by ['origin/' + v]. *)
Definition to_string (v : jstr) : string :=
  match v with
  | JUndefined => "undefined"
  | JNull => "null"
  | JStr s => s
  end.

(** White space as [String.prototype.trim] sees it, on code units below 256:
    TAB, LF, VT, FF, CR, SP and NBSP. *)
Definition is_ws (c : ascii) : bool :=
  match c with
  | "009" | "010" | "011" | "012" | "013" | " " | "160" => true
  | _ => false
  end%char.

Fixpoint trimStart (s : string) : string :=
  match s with
  | String c r => if is_ws c then trimStart r else s
  | EmptyString => EmptyString
  end.

Fixpoint trimEnd (s : string) : string :=
  match s with
  | String c r =>
      match trimEnd r with
      | EmptyString => if is_ws c then EmptyString else String c EmptyString
      | r' => String c r'
      end
  | EmptyString => EmptyString
  end.

(** [s.trim()] *)
Definition trim (s : string) : string := trimEnd (trimStart s).

(** [Some rest] when [s = p + rest]. *)
Fixpoint strip_prefix (p s : string) : option string :=
  match p, s with
  | EmptyString, _ => Some s
  | String a p', String b s' =>
      if decide (a = b) then strip_prefix p' s' else None
  | String _ _, EmptyString => None
  end.

(** [s.startsWith(p)] *)
Definition startsWith (s p : string) : bool :=
  match strip_prefix p s with Some _ => true | None => false end.

(** [s.replace(pat, rep)] for a string pattern [pat]: the first occurrence
    only.  ([rep] is taken literally; the file only ever passes [''].) *)
Fixpoint replace (pat rep s : string) : string :=
  match strip_prefix pat s with
  | Some rest => rep +:+ rest
  | None =>
      match s with
      | String c r => String c (replace pat rep r)
      | EmptyString => EmptyString
      end
  end.

(** [s.replace(/^p/, '')] for a literal [p]. *)
Definition replace_anchored (p s : string) : string :=
  match strip_prefix p s with
  | Some rest => rest
  | None => s
  end.

(** [s.split(c)] for a one-character separator. *)
Fixpoint split (c : ascii) (s : string) : list string :=
  match s with
  | EmptyString => [EmptyString]
  | String a r =>
      if decide (a = c) then EmptyString :: split c r
      else match split c r with
           | h :: t => String a h :: t
           | [] => [String a EmptyString]
           end
  end.

Definition nonempty (s : string) : bool :=
  match s with EmptyString => false | _ => true end.

(** [l.filter(Boolean)] on an array of strings. *)
Definition filter_Boolean (l : list string) : list string :=
  List.filter nonempty l.

(** [l.includes(x)] *)
Definition includes (l : list string) (x : string) : bool :=
  bool_decide (x ∈ l).

Definition LF : ascii := "010"%char.
Definition nl : string := String LF EmptyString.

(** A string that neither starts nor ends with white space. *)
Definition trimmed (s : string) : Prop := trim s = s.

(** A path a line-per-path listing can carry: not empty, no line feed. *)
Fixpoint no_LF (s : string) : bool :=
  match s with
  | EmptyString => true
  | String c r => (if decide (c = LF) then false else true) && no_LF r
  end.

Definition listable (p : string) : bool := nonempty p && no_LF p.

(** A JavaScript [Date]: its time value in milliseconds, [None] for an
    invalid date ([new Date(NaN)]). *)
Record Date : Type := mkDate { time_value : option Z }.

End Js.
Export Js.

(** [localName], the only function outside the class. *)
Definition localName (branchName : string) : string :=
  replace_anchored "origin/" branchName.

(** ** The engine and the host

    [simple-git], [fs-extra], [path], [os] and [process] are not part of
    the repository: the class is verified against their interface. *)

(** A file-system path, as the list of the segments handed to [path.join]
    (no normalisation of [.] and [..] is modelled). *)
Abbreviation path := (list string).
Definition path_join (segments : list path) : path := concat segments.

(** The methods of the [simple-git] handle the class calls, indexed by
    the type of the value the promise resolves to. *)
Inductive call : Type → Type :=
| Raw (args : list string) : call string
| Fetch (url : string) (options : list string) : call unit
| Clone (url : string) (target : string) (options : list string) : call unit
| Reset (mode : string) : call unit
| Checkout (args : list string) : call unit
| Push (args : list string) : call unit
| Revparse (args : list string) : call string
| Log (n : nat) : call (list string)        (* the [%s] of each commit *)
| Branch (args : list string) : call (list string)   (* [summary.all] *)
| DeleteLocalBranch (name : string) : call unit
| Merge (args : list string) : call unit
| Show (args : list string) : call string
| Add (files : list string) : call unit
| Commit (message : string) : call unit.

Definition anycall : Type := sigT call.
Definition Called {A} (c : call A) : anycall := existT A c.

Inductive exn : Type :=
| TypeError (what : string)    (* a method called on [null] *)
| Failure (message : string).  (* a rejected promise of the engine or of fs *)

Inductive outcome (A : Type) : Type :=
| Ok (a : A)
| Throw (e : exn).
Arguments Ok {A} a.
Arguments Throw {A} e.

Class Runtime (W : Type) : Type := {
  (** [Git(dir).silent(true).<call>]: a result or a rejection, and the
      world after it. *)
  git_exec : ∀ {A}, path → call A → W → outcome A * W;
  fs_exists : path → W → bool;
  fs_emptyDir : path → W → outcome unit * W;
  fs_writeFile : path → string → W → outcome unit * W;
  env_RENOVATE_TMPDIR : W → jstr;
  env_NODE_ENV : W → jstr;
  os_tmpdir : W → string;
  (** the clock read by [new Date()] *)
  Date_now : W → Z;
  Date_parse : string → option Z;
}.

(** ** Data model *)

Record Author : Type := mkAuthor { name : string; address : string }.

(** The fields of [args] the class reads. *)
Record Config : Type := mkConfig {
  platform : jstr;
  repository : jstr;
  url : jstr;
  gitAuthor : option Author;
  baseBranch : jstr;
}.

(** [let config = {}] *)
Definition empty_config : Config :=
  {| platform := JUndefined; repository := JUndefined; url := JUndefined;
     gitAuthor := None; baseBranch := JUndefined |}.

Definition with_baseBranch (b : jstr) (c : Config) : Config :=
  {| platform := platform c; repository := repository c; url := url c;
     gitAuthor := gitAuthor c; baseBranch := b |}.

(** An element of [files]. *)
Record FileChange : Type := mkFile { file_name : string; contents : string }.

(** ** The class *)

Section Storage.
Context {W : Type} `{RT : Runtime W}.

(** The closure variables of the constructor, the world the engine acts
    on, and (a ghost field) the engine calls issued so far, oldest first. *)
Record State : Type := mkState {
  config : Config;
  git : option path;       (* [null], or the directory of the handle *)
  repoDir : option path;
  world : W;
  trace : list anycall;
}.

(** [new Storage()] *)
Definition new_Storage (w : W) : State :=
  {| config := empty_config; git := None; repoDir := None;
     world := w; trace := [] |}.

(** An [async] method: it resolves or rejects, and leaves a state. *)
Definition M (A : Type) : Type := State → outcome A * State.

#[export] Instance M_ret : MRet M := λ A a st, (Ok a, st).
#[export] Instance M_bind : MBind M := λ A B f m st,
  match m st with
  | (Ok a, st') => f a st'
  | (Throw e, st') => (Throw e, st')
  end.

Definition throw {A} (e : exn) : M A := λ st, (Throw e, st).

(** [try { body } catch (ex) { handler }] *)
Definition try_catch {A} (body : M A) (handler : exn → M A) : M A := λ st,
  match body st with
  | (Ok a, st') => (Ok a, st')
  | (Throw e, st') => handler e st'
  end.

Definition get_config : M Config := λ st, (Ok (config st), st).
Definition set_config (c : Config) : M unit := λ st,
  (Ok tt, {| config := c; git := git st; repoDir := repoDir st;
             world := world st; trace := trace st |}).
Definition get_repoDir : M path := λ st,
  match repoDir st with
  | Some d => (Ok d, st)
  | None => (Throw (TypeError "path"), st)
  end.
Definition set_repoDir (d : path) : M unit := λ st,
  (Ok tt, {| config := config st; git := git st; repoDir := Some d;
             world := world st; trace := trace st |}).
(** [git = Git(dir).silent(true)] *)
Definition set_git (d : path) : M unit := λ st,
  (Ok tt, {| config := config st; git := Some d; repoDir := repoDir st;
             world := world st; trace := trace st |}).
Definition read {A} (f : W → A) : M A := λ st, (Ok (f (world st)), st).

Definition on_world {A} (f : W → outcome A * W) (tr : list anycall) : M A :=
  λ st, let '(r, w) := f (world st) in
        (r, {| config := config st; git := git st; repoDir := repoDir st;
               world := w; trace := trace st ++ tr |}).

(** [await git.<c>]: a [TypeError] while [git] is [null]. *)
Definition git_call {A} (c : call A) : M A := λ st,
  match git st with
  | Some d => on_world (git_exec d c) [Called c] st
  | None => (Throw (TypeError "git"), st)
  end.

(** [path.join] rejects an argument that is not a string. *)
Fixpoint js_path_join (parts : list jstr) : M path :=
  match parts with
  | [] => mret []
  | JStr s :: rest => p ← js_path_join rest; mret (s :: p)
  | _ :: _ => throw (TypeError "path")
  end.

Definition cleanRepo : M unit := mret tt.

Definition initRepo (args : Config) : M unit :=
  cleanRepo;;
  set_config args;;
  tmp ← read (λ w, or_else (env_RENOVATE_TMPDIR w) (JStr (os_tmpdir w)));
  dir ← js_path_join [tmp; platform args; repository args];
  set_repoDir dir;;
  let gitHead := path_join [dir; [".git/HEAD"]] in
  not_test ← read (λ w, bool_decide (env_NODE_ENV w ≠ JStr "test"));
  refresh ← (if not_test : bool then read (fs_exists gitHead) else mret false);
  clone ←
    (if refresh : bool then
       try_catch
         (set_git dir;;
          git_call (Raw ["remote"; "set-url"; "origin"; to_string (url args)]);;
          git_call (Fetch (to_string (url args))
                          ["--depth=2"; "--no-single-branch"]);;
          git_call (Raw ["remote"; "prune"; "origin"]);;
          mret false)
         (λ _, mret true)
     else mret true);
  (if clone : bool then
     on_world (fs_emptyDir dir) [];;
     set_git dir;;
     git_call (Clone (to_string (url args)) "."
                     ["--depth=2"; "--no-single-branch"])
   else mret tt);;
  match gitAuthor args with
  | Some a =>
      git_call (Raw ["config"; "user.name"; name a]);;
      git_call (Raw ["config"; "user.email"; address a]);;
      git_call (Raw ["config"; "commit.gpgsign"; "false"]);;
      mret tt
  | None => mret tt
  end;;
  cfg ← get_config;
  b ← (if truthy (baseBranch cfg) then mret (baseBranch cfg)
       else out ← git_call (Raw ["symbolic-ref"; "refs/remotes/origin/HEAD"]);
            mret (JStr (trim (replace "refs/remotes/origin/" "" out))));
  cfg' ← get_config;
  set_config (with_baseBranch b cfg').

Definition createBranch (branchName sha : string) : M unit :=
  git_call (Reset "hard");;
  git_call (Checkout ["-B"; branchName; sha]);;
  git_call (Push ["origin"; branchName; "--force"]).

Definition getBranchCommit (branchName : string) : M string :=
  res ← git_call (Revparse ["origin/" +:+ branchName]);
  mret (trim res).

Definition getCommitMessages : M (list string) :=
  git_call (Log 10).

Definition setBaseBranch (branchName : jstr) : M unit :=
  if truthy branchName then
    cfg ← get_config; set_config (with_baseBranch branchName cfg)
  else mret tt.

Definition branchExists (branchName : jstr) : M bool :=
  try_catch
    (git_call (Raw ["show-branch"; "origin/" +:+ to_string branchName]);;
     mret true)
    (λ _, mret false).

Definition getFileList (branchName : jstr) : M (list string) :=
  cfg ← get_config;
  let branch := or_else branchName (baseBranch cfg) in
  exists_ ← branchExists branch;
  if exists_ : bool then
    files ← git_call (Raw ["ls-tree"; "-r"; "--name-only";
                           "origin/" +:+ to_string branch]);
    mret (filter_Boolean (split LF files))
  else mret [].

Definition getAllRenovateBranches (branchPrefix : string) : M (list string) :=
  all ← git_call (Branch ["--remotes"; "--verbose"]);
  mret (List.filter (λ branchName, startsWith branchName branchPrefix)
                    (map localName all)).

Definition isBranchStale (branchName : string) : M bool :=
  cfg ← get_config;
  all ← git_call (Branch ["--remotes"; "--verbose"; "--contains";
                          to_string (baseBranch cfg)]);
  mret (negb (includes (map localName all) branchName)).

Definition deleteBranch (branchName : string) : M unit :=
  git_call (Raw ["push"; "--delete"; "origin"; branchName]);;
  try_catch (git_call (DeleteLocalBranch branchName)) (λ _, mret tt).

Definition mergeBranch (branchName : string) : M unit :=
  git_call (Reset "hard");;
  git_call (Checkout ["-B"; branchName; "origin/" +:+ branchName]);;
  cfg ← get_config;
  git_call (Checkout [to_string (baseBranch cfg)]);;
  git_call (Merge [branchName]);;
  cfg' ← get_config;
  git_call (Push ["origin"; to_string (baseBranch cfg')]).

Definition getBranchLastCommitTime (branchName : string) : M Date :=
  try_catch
    (time ← git_call (Show ["-s"; "--format=%ai"; "origin/" +:+ branchName]);
     mret (mkDate (Date_parse time)))
    (λ _, now ← read Date_now; mret (mkDate (Some now))).

(** [null] is [None]. *)
Definition getFile (filePath : string) (branchName : jstr)
  : M (option string) :=
  let lookup : M (option string) :=
    try_catch
      (cfg ← get_config;
       content ← git_call
         (Show [(("origin/" +:+
                  to_string (or_else branchName (baseBranch cfg))) +:+ ":")
                +:+ filePath]);
       mret (Some content))
      (λ _, mret None) in
  if truthy branchName then
    exists_ ← branchExists branchName;
    if exists_ : bool then lookup else mret None
  else lookup.

(** [for (const file of files) await fs.writeFile(...)] *)
Fixpoint write_files (files : list FileChange) : M unit :=
  match files with
  | [] => mret tt
  | file :: rest =>
      dir ← get_repoDir;
      on_world (fs_writeFile (path_join [dir; [file_name file]])
                             (contents file)) [];;
      write_files rest
  end.

(** The default [parentBranch = config.baseBranch] applies to [undefined]
    only. *)
Definition commitFilesToBranch (branchName : string) (files : list FileChange)
    (message : string) (parentBranch : jstr) : M unit :=
  parent ← match parentBranch with
           | JUndefined => cfg ← get_config; mret (baseBranch cfg)
           | _ => mret parentBranch
           end;
  git_call (Reset "hard");;
  git_call (Checkout ["-B"; branchName; "origin/" +:+ to_string parent]);;
  write_files files;;
  git_call (Add (map file_name files));;
  git_call (Commit message);;
  git_call (Push ["origin"; branchName; "--force"]).

(** A computation that leaves a component [f] of the session alone. *)
Definition keeps {X A} (f : State → X) (m : M A) : Prop :=
  ∀ st (r : outcome A) st', m st = (r, st') → f st' = f st.

(** A component that is not about the world or the trace. *)
Definition session_only {X} (f : State → X) : Prop :=
  ∀ st w tr,
    f {| config := config st; git := git st; repoDir := repoDir st;
         world := w; trace := tr |} = f st.

(** A session as [initRepo] leaves it: the handle works in [repoDir]. *)
Definition initialised (st : State) : Prop :=
  ∃ d, git st = Some d ∧ repoDir st = Some d.

(** The three closure variables together. *)
Definition session (st : State) : Config * option path * option path :=
  (config st, git st, repoDir st).

(** The directory [initRepo] computes for [args], when [path.join] accepts
    its arguments. *)
Definition repo_path (w : W) (args : Config) : option path :=
  match or_else (env_RENOVATE_TMPDIR w) (JStr (os_tmpdir w)),
        platform args, repository args with
  | JStr t, JStr p, JStr r => Some [t; p; r]
  | _, _, _ => None
  end.

(** A computation that leaves [f] alone whenever it rejects. *)
Definition rejects_keeping {X A} (f : State → X) (m : M A) : Prop :=
  ∀ st e st', m st = (Throw e, st') → f st' = f st.

End Storage.

Arguments State W : clear implicits.
Arguments M W A : clear implicits.

(** ** A reference model of the engine

    One remote repository and the working copies cloned from it.  Objects
    are commits with their whole tree; a branch is a name bound to a commit
    identifier.  What the model leaves out: shallow history (every clone has
    all commits), tags, merges that are not fast-forwards, the normalisation
    of paths, and git's rules for ambiguous names (a revision [origin/x] is
    the remote-tracking ref of [x], a full identifier is a commit, any other
    name is a local branch).  A command that fails changes nothing but the
    clock. *)

Module SimGit.

Record CommitObject : Type := mkCommit {
  tree : gmap string string;       (* path ↦ contents *)
  parents : list string;
  subject : string;
  author_date : Z;
}.

#[global] Instance CommitObject_eq_dec : EqDecision CommitObject.
Proof. solve_decision. Defined.

(** What git and the JavaScript host compute and the model does not:
    the name of a commit object, the [%ai] rendering of a time, and
    [Date.parse]. *)
Class Params : Type := {
  commit_id : CommitObject → string;
  format_ai : Z → string;
  js_Date_parse : string → option Z;
}.

Record Remote : Type := mkRemote {
  r_objects : gmap string CommitObject;
  r_heads : gmap string string;    (* refs/heads/ *)
  r_HEAD : string;                 (* the default branch *)
}.

Inductive Head : Type :=
| OnBranch (b : string)
| Detached (sha : string).

#[global] Instance Head_eq_dec : EqDecision Head.
Proof. solve_decision. Defined.

Record WorkCopy : Type := mkWorkCopy {
  objects : gmap string CommitObject;
  heads : gmap string string;      (* refs/heads/ *)
  remotes : gmap string string;    (* refs/remotes/origin/ *)
  origin_HEAD : option string;     (* refs/remotes/origin/HEAD *)
  HEAD : Head;
  index : gmap string string;
  worktree : gmap string string;
  settings : list (string * string);
}.

Record World : Type := mkWorld {
  origin : Remote;
  disk : gmap path WorkCopy;       (* the directories that hold a clone *)
  clock : Z;
  tmpdir : string;
  RENOVATE_TMPDIR : jstr;
  NODE_ENV : jstr;
}.

Definition with_refs (hs rs : gmap string string) (h : Head) (wc : WorkCopy)
  : WorkCopy :=
  {| objects := objects wc; heads := hs; remotes := rs;
     origin_HEAD := origin_HEAD wc; HEAD := h; index := index wc;
     worktree := worktree wc; settings := settings wc |}.

Definition with_files (ix wt : gmap string string) (wc : WorkCopy) : WorkCopy :=
  {| objects := objects wc; heads := heads wc; remotes := remotes wc;
     origin_HEAD := origin_HEAD wc; HEAD := HEAD wc; index := ix;
     worktree := wt; settings := settings wc |}.

Definition with_objects (os : gmap string CommitObject) (wc : WorkCopy) : WorkCopy :=
  {| objects := os; heads := heads wc; remotes := remotes wc;
     origin_HEAD := origin_HEAD wc; HEAD := HEAD wc; index := index wc;
     worktree := worktree wc; settings := settings wc |}.

Definition with_setting (k v : string) (wc : WorkCopy) : WorkCopy :=
  {| objects := objects wc; heads := heads wc; remotes := remotes wc;
     origin_HEAD := origin_HEAD wc; HEAD := HEAD wc; index := index wc;
     worktree := worktree wc; settings := (k, v) :: settings wc |}.

(** *** Revisions *)

Definition is_hex (c : ascii) : bool :=
  match c with
  | "0" | "1" | "2" | "3" | "4" | "5" | "6" | "7" | "8" | "9"
  | "a" | "b" | "c" | "d" | "e" | "f" => true
  | _ => false
  end%char.

Fixpoint all_hex (s : string) : bool :=
  match s with
  | EmptyString => true
  | String c r => is_hex c && all_hex r
  end.

(** A full commit identifier: 40 hexadecimal digits. *)
Definition is_sha (s : string) : bool :=
  bool_decide (String.length s = 40%nat) && all_hex s.

Definition head_sha (wc : WorkCopy) : option string :=
  match HEAD wc with
  | OnBranch b => heads wc !! b
  | Detached s => Some s
  end.

Definition resolve (wc : WorkCopy) (rev : string) : option string :=
  if is_sha rev then _ ← objects wc !! rev; Some rev
  else match strip_prefix "origin/" rev with
       | Some b => remotes wc !! b
       | None => if decide (rev = "HEAD") then head_sha wc else heads wc !! rev
       end.

(** The commit a revision names, with its identifier. *)
Definition resolve_commit (wc : WorkCopy) (rev : string)
  : option (string * CommitObject) :=
  s ← resolve wc rev; c ← objects wc !! s; Some (s, c).

(** [target] is [from] or one of its ancestors. *)
Fixpoint reaches (os : gmap string CommitObject) (fuel : nat)
    (target from : string) : bool :=
  bool_decide (from = target) ||
  match fuel with
  | O => false
  | S fuel' =>
      match os !! from with
      | Some c => existsb (reaches os fuel' target) (parents c)
      | None => false
      end
  end.

Definition contains (wc : WorkCopy) (target from : string) : bool :=
  reaches (objects wc) (size (objects wc)) target from.

(** *** Commands on a working copy *)

(** Tracked files become those of [c]; untracked files stay. *)
Definition switch_to (c : CommitObject) (wc : WorkCopy) : WorkCopy :=
  with_files (tree c) (tree c ∪ (worktree wc ∖ index wc)) wc.

Definition reset_hard (wc : WorkCopy) : option WorkCopy :=
  s ← head_sha wc; c ← objects wc !! s; Some (switch_to c wc).

(** [checkout -B b rev] *)
Definition checkout_B (b rev : string) (wc : WorkCopy) : option WorkCopy :=
  '(s, c) ← resolve_commit wc rev;
  Some (with_refs (<[b := s]> (heads wc)) (remotes wc) (OnBranch b)
                  (switch_to c wc)).

(** [checkout rev]: a local branch, else a new local branch for the
    remote-tracking ref of that name, else a detached commit. *)
Definition checkout (rev : string) (wc : WorkCopy) : option WorkCopy :=
  match heads wc !! rev with
  | Some s =>
      c ← objects wc !! s;
      Some (with_refs (heads wc) (remotes wc) (OnBranch rev) (switch_to c wc))
  | None =>
      match remotes wc !! rev with
      | Some s =>
          c ← objects wc !! s;
          Some (with_refs (<[rev := s]> (heads wc)) (remotes wc) (OnBranch rev)
                          (switch_to c wc))
      | None =>
          '(s, c) ← resolve_commit wc rev;
          Some (with_refs (heads wc) (remotes wc) (Detached s) (switch_to c wc))
      end
  end.

(** [add names]: stage the file, or its deletion. *)
Fixpoint add (names : list string) (wc : WorkCopy) : option WorkCopy :=
  match names with
  | [] => Some wc
  | n :: rest =>
      match worktree wc !! n with
      | Some text => add rest (with_files (<[n := text]> (index wc)) (worktree wc) wc)
      | None =>
          _ ← index wc !! n;
          add rest (with_files (delete n (index wc)) (worktree wc) wc)
      end
  end.

(** Move the current branch, or the detached head, to [s]. *)
Definition advance (s : string) (wc : WorkCopy) : WorkCopy :=
  match HEAD wc with
  | OnBranch b => with_refs (<[b := s]> (heads wc)) (remotes wc) (OnBranch b) wc
  | Detached _ => with_refs (heads wc) (remotes wc) (Detached s) wc
  end.

(** [commit message]: with nothing staged the command reports so on its
    standard output and the promise resolves. *)
Definition commit `{Params} (message : string) (now : Z) (wc : WorkCopy)
  : option WorkCopy :=
  h ← head_sha wc; hc ← objects wc !! h;
  if decide (index wc = tree hc) then Some wc
  else
    let c := {| tree := index wc; parents := [h]; subject := message;
                author_date := now |} in
    Some (advance (commit_id c)
                  (with_objects (<[commit_id c := c]> (objects wc)) wc)).

Definition with_push (b s : string) (wc : WorkCopy) (r : Remote) : Remote :=
  {| r_objects := objects wc ∪ r_objects r;
     r_heads := <[b := s]> (r_heads r); r_HEAD := r_HEAD r |}.

(** [push origin b --force], and [push origin b], which the remote rejects
    unless it is a fast-forward. *)
Definition push (b : string) (force : bool) (wc : WorkCopy) (r : Remote)
  : option (WorkCopy * Remote) :=
  s ← heads wc !! b;
  let ff := match r_heads r !! b with
            | Some old => contains wc old s
            | None => true
            end in
  if force || ff then
    Some (with_refs (heads wc) (<[b := s]> (remotes wc)) (HEAD wc) wc,
          with_push b s wc r)
  else None.

(** [push --delete origin b] *)
Definition push_delete (b : string) (wc : WorkCopy) (r : Remote)
  : option (WorkCopy * Remote) :=
  _ ← r_heads r !! b;
  Some (with_refs (heads wc) (delete b (remotes wc)) (HEAD wc) wc,
        {| r_objects := r_objects r; r_heads := delete b (r_heads r);
           r_HEAD := r_HEAD r |}).

(** [branch -d b]: not the current branch, and merged into it. *)
Definition delete_local (b : string) (wc : WorkCopy) : option WorkCopy :=
  s ← heads wc !! b; h ← head_sha wc;
  if decide (HEAD wc = OnBranch b) then None
  else if contains wc s h
       then Some (with_refs (delete b (heads wc)) (remotes wc) (HEAD wc) wc)
       else None.

(** [merge b]: a fast-forward, or nothing to do. *)
Definition merge (b : string) (wc : WorkCopy) : option WorkCopy :=
  '(s, c) ← resolve_commit wc b; h ← head_sha wc;
  if contains wc s h then Some wc
  else if contains wc h s then Some (advance s (switch_to c wc))
  else None.

Definition fetch (wc : WorkCopy) (r : Remote) : WorkCopy :=
  with_refs (heads wc) (r_heads r ∪ remotes wc) (HEAD wc)
            (with_objects (r_objects r ∪ objects wc) wc).

Definition prune (wc : WorkCopy) (r : Remote) : WorkCopy :=
  with_refs (heads wc)
            (filter (λ kv, is_Some (r_heads r !! kv.1)) (remotes wc))
            (HEAD wc) wc.

Definition clone (r : Remote) : WorkCopy :=
  match r_heads r !! r_HEAD r with
  | Some s =>
      let files := default ∅ (tree <$> r_objects r !! s) in
      {| objects := r_objects r; heads := {[ r_HEAD r := s ]};
         remotes := r_heads r; origin_HEAD := Some (r_HEAD r);
         HEAD := OnBranch (r_HEAD r); index := files; worktree := files;
         settings := [] |}
  | None =>
      {| objects := r_objects r; heads := ∅; remotes := r_heads r;
         origin_HEAD := None; HEAD := OnBranch (r_HEAD r);
         index := ∅; worktree := ∅; settings := [] |}
  end.

Definition lines (l : list string) : string :=
  foldr (λ p out, p +:+ nl +:+ out) "" l.

(** The paths of a tree, in the order of the map (git sorts them; no
    property here depends on the order). *)
Definition tree_paths (t : gmap string string) : list string :=
  (map_to_list t).*1.

(** [rev:path] *)
Fixpoint split_colon (s : string) : option (string * string) :=
  match s with
  | EmptyString => None
  | String c r =>
      if decide (c = ":"%char) then Some (EmptyString, r)
      else '(rev, p) ← split_colon r; Some (String c rev, p)
  end.

Definition show `{Params} (args : list string) (wc : WorkCopy) : option string :=
  match args with
  | [spec] =>
      '(rev, p) ← split_colon spec;
      '(_, c) ← resolve_commit wc rev;
      tree c !! p
  | [o1; o2; rev] =>
      if decide (o1 = "-s" ∧ o2 = "--format=%ai") then
        '(_, c) ← resolve_commit wc rev;
        Some (format_ai (author_date c) +:+ nl)
      else None
  | _ => None
  end.

Definition branch (args : list string) (wc : WorkCopy)
  : option (list string) :=
  let listed (keep : string → bool) :=
    (λ kv : string * string, "origin/" +:+ kv.1) <$>
    List.filter (λ kv : string * string, keep kv.2) (map_to_list (remotes wc)) in
  match args with
  | [o1; o2] =>
      if decide (o1 = "--remotes" ∧ o2 = "--verbose")
      then Some (listed (λ _, true)) else None
  | [o1; o2; o3; rev] =>
      if decide (o1 = "--remotes" ∧ o2 = "--verbose" ∧ o3 = "--contains") then
        '(s, _) ← resolve_commit wc rev;
        Some (listed (contains wc s))
      else None
  | _ => None
  end.

(** The subjects along the first parents, newest first. *)
Fixpoint history (os : gmap string CommitObject) (n : nat) (s : string)
  : list string :=
  match n with
  | O => []
  | S n' =>
      match os !! s with
      | Some c =>
          subject c :: match parents c with
                       | p :: _ => history os n' p
                       | [] => []
                       end
      | None => []
      end
  end.

Definition raw (args : list string) (wc : WorkCopy) (r : Remote)
  : option (string * WorkCopy * Remote) :=
  match args with
  | [cmd; a] =>
      if decide (cmd = "show-branch") then
        '(_, c) ← resolve_commit wc a;
        Some ("[" +:+ a +:+ "] " +:+ subject c +:+ nl, wc, r)
      else if decide (cmd = "symbolic-ref" ∧ a = "refs/remotes/origin/HEAD") then
        h ← origin_HEAD wc;
        Some ("refs/remotes/origin/" +:+ h +:+ nl, wc, r)
      else None
  | [cmd; a; b] =>
      if decide (cmd = "config") then Some ("", with_setting a b wc, r)
      else if decide (cmd = "remote" ∧ a = "prune" ∧ b = "origin")
           then Some ("", prune wc r, r)
           else None
  | [cmd; a; b; c] =>
      if decide (cmd = "remote" ∧ a = "set-url" ∧ b = "origin") then
        Some ("", with_setting "remote.origin.url" c wc, r)
      else if decide (cmd = "push" ∧ a = "--delete" ∧ b = "origin") then
        '(wc', r') ← push_delete c wc r; Some ("", wc', r')
      else if decide (cmd = "ls-tree" ∧ a = "-r" ∧ b = "--name-only") then
        '(_, k) ← resolve_commit wc c;
        Some (lines (tree_paths (tree k)), wc, r)
      else None
  | _ => None
  end.

Definition only {A} (x : option WorkCopy) (a : A) (r : Remote)
  : option (A * WorkCopy * Remote) :=
  wc ← x; Some (a, wc, r).

(** One command in a directory that holds a clone. *)
Definition step `{Params} {A} (c : call A) (now : Z) (wc : WorkCopy) (r : Remote)
  : option (A * WorkCopy * Remote) :=
  match c in call T return option (T * WorkCopy * Remote) with
  | Raw args => raw args wc r
  | Fetch _ _ => Some (tt, fetch wc r, r)
  | Clone _ _ _ => None
  | Reset mode =>
      if decide (mode = "hard") then only (reset_hard wc) tt r else None
  | Checkout args =>
      match args with
      | [rev] => only (checkout rev wc) tt r
      | [o; b; rev] =>
          if decide (o = "-B") then only (checkout_B b rev wc) tt r else None
      | _ => None
      end
  | Push args =>
      match args with
      | [o; b] =>
          if decide (o = "origin")
          then '(wc', r') ← push b false wc r; Some (tt, wc', r') else None
      | [o; b; f] =>
          if decide (o = "origin" ∧ f = "--force")
          then '(wc', r') ← push b true wc r; Some (tt, wc', r') else None
      | _ => None
      end
  | Revparse args =>
      match args with
      | [rev] => '(s, _) ← resolve_commit wc rev; Some (s +:+ nl, wc, r)
      | _ => None
      end
  | Log n => s ← head_sha wc; Some (history (objects wc) n s, wc, r)
  | Branch args => l ← branch args wc; Some (l, wc, r)
  | DeleteLocalBranch b => only (delete_local b wc) tt r
  | Merge args =>
      match args with
      | [b] => only (merge b wc) tt r
      | _ => None
      end
  | Show args => out ← show args wc; Some (out, wc, r)
  | Add files => only (add files wc) tt r
  | Commit message => only (commit message now wc) tt r
  end.

Definition is_clone {A} (c : call A) : bool :=
  match c with Clone _ _ _ => true | _ => false end.

Definition update (d : option (path * WorkCopy)) (r : Remote) (w : World)
  : World :=
  {| origin := r;
     disk := match d with Some (dir, wc) => <[dir := wc]> (disk w)
                        | None => disk w end;
     clock := clock w + 1;
     tmpdir := tmpdir w; RENOVATE_TMPDIR := RENOVATE_TMPDIR w;
     NODE_ENV := NODE_ENV w |}.

(** Every command takes a unit of time. *)
Definition exec `{Params} {A} (dir : path) (c : call A) (w : World)
  : outcome A * World :=
  let failed := (Throw (Failure "git"), update None (origin w) w) in
  match disk w !! dir with
  | Some wc =>
      match step c (clock w) wc (origin w) with
      | Some (a, wc', r') => (Ok a, update (Some (dir, wc')) r' w)
      | None => failed
      end
  | None =>
      match c in call T return outcome T * World → outcome T * World with
      | Clone _ _ _ => λ _,
          (Ok tt, update (Some (dir, clone (origin w))) (origin w) w)
      | _ => λ f, f
      end failed
  end.

Definition with_disk (d : gmap path WorkCopy) (w : World) : World :=
  {| origin := origin w; disk := d; clock := clock w; tmpdir := tmpdir w;
     RENOVATE_TMPDIR := RENOVATE_TMPDIR w; NODE_ENV := NODE_ENV w |}.

(** [fs.exists(dir/.git/HEAD)] *)
Definition exists_ (p : path) (w : World) : bool :=
  match last p with
  | Some f => bool_decide (f = ".git/HEAD") &&
              bool_decide (is_Some (disk w !! removelast p))
  | None => false
  end.

Definition emptyDir (dir : path) (w : World) : outcome unit * World :=
  (Ok tt, with_disk (delete dir (disk w)) w).

(** [fs.writeFile(dir/name, text)], in the work tree of the clone at [dir]. *)
Definition writeFile (p : path) (text : string) (w : World)
  : outcome unit * World :=
  match last p, disk w !! removelast p with
  | Some f, Some wc =>
      (Ok tt, with_disk (<[removelast p :=
                 with_files (index wc) (<[f := text]> (worktree wc)) wc]>
                 (disk w)) w)
  | _, _ => (Throw (Failure "ENOENT"), w)
  end.

#[export] Instance runtime `{Params} : Runtime World := {|
  git_exec := @exec _;
  fs_exists := exists_;
  fs_emptyDir := emptyDir;
  fs_writeFile := writeFile;
  env_RENOVATE_TMPDIR := RENOVATE_TMPDIR;
  env_NODE_ENV := NODE_ENV;
  os_tmpdir := tmpdir;
  Date_now := clock;
  Date_parse := js_Date_parse;
|}.

(** *** The session's view of the model *)

(** The working copy behind the handle [git]. *)
Definition copy `{Params} (st : State World) : option WorkCopy :=
  d ← git st; disk (world st) !! d.

(** The tree at the tip of branch [b] on the remote. *)
Definition remote_tree (w : World) (b : string)
  : option (gmap string string) :=
  s ← r_heads (origin w) !! b; c ← r_objects (origin w) !! s; Some (tree c).

(** The tree at the tip of [origin/b] in the session's working copy. *)
Definition tracking_tree `{Params} (st : State World) (b : string)
  : option (gmap string string) :=
  wc ← copy st; '(_, c) ← resolve_commit wc ("origin/" +:+ b); Some (tree c).

(** [files] written over a tree, in order. *)
Definition overlay (files : list FileChange) (t : gmap string string)
  : gmap string string :=
  foldl (λ t f, <[file_name f := contents f]> t) t files.

(** What [add names] leaves in the index, given the work tree. *)
Definition stage (wt : gmap string string) (names : list string)
    (ix : gmap string string) : gmap string string :=
  foldl (λ ix n, match wt !! n with
                 | Some text => <[n := text]> ix
                 | None => delete n ix
                 end) ix names.

(** The session after an engine call that made the working copy at [d]
    (if any) and the remote what they are given as. *)
Definition after `{Params} (d : option (path * WorkCopy)) (r : Remote)
    (c : anycall) (st : State World) : State World :=
  {| config := config st; git := git st; repoDir := repoDir st;
     world := update d r (world st); trace := trace st ++ [c] |}.

(** Everything in the world but the clock: the remote and the clones. *)
Definition repositories (st : State World)
  : Remote * gmap path WorkCopy :=
  (origin (world st), disk (world st)).

(** Where branch [b] is on the remote. *)
Definition remote_head (b : string) (st : State World) : option string :=
  r_heads (origin (world st)) !! b.

Definition remote (st : State World) : Remote := origin (world st).

(** A name without a colon, as every branch name is. *)
Fixpoint no_colon (s : string) : bool :=
  match s with
  | EmptyString => true
  | String c r => (if decide (c = ":"%char) then false else true) && no_colon r
  end.

(** An engine call that, on the model, changes neither the working copy
    nor the remote. *)
Definition read_only_call `{Params} {A} (c : call A) : Prop :=
  ∀ now wc r (a : A) wc' r',
    step c now wc r = Some (a, wc', r') → wc' = wc ∧ r' = r.

(** An engine call that leaves the remote as it is. *)
Definition local_call `{Params} {A} (c : call A) : Prop :=
  ∀ now wc r (a : A) wc' r', step c now wc r = Some (a, wc', r') → r' = r.

(** An engine call that leaves branch [b] of the remote where it is. *)
Definition spares `{Params} {A} (b : string) (c : call A) : Prop :=
  ∀ now wc r (a : A) wc' r',
    step c now wc r = Some (a, wc', r') → r_heads r' !! b = r_heads r !! b.

(** The parent branch a call of [commitFilesToBranch] builds on. *)
Definition parent_of `{Params} (st : State World) (parentBranch : jstr)
  : string :=
  to_string match parentBranch with
            | JUndefined => baseBranch (config st)
            | _ => parentBranch
            end.

(** The working copy once [initRepo] has set the author, if any. *)
Definition with_author (a : option Author) (wc : WorkCopy) : WorkCopy :=
  match a with
  | Some a =>
      with_setting "commit.gpgsign" "false"
        (with_setting "user.email" (address a)
           (with_setting "user.name" (name a) wc))
  | None => wc
  end.

End SimGit.


(** ** A concrete session

    A remote with one commit on [master], used to run the class. *)

Module Scenario.
Import SimGit.

Definition hex_digit (n : Z) : ascii :=
  match n with
  | 0 => "0" | 1 => "1" | 2 => "2" | 3 => "3" | 4 => "4" | 5 => "5"
  | 6 => "6" | 7 => "7" | 8 => "8" | 9 => "9" | 10 => "a" | 11 => "b"
  | 12 => "c" | 13 => "d" | 14 => "e" | _ => "f"
  end%char.

(** The last [n] hexadecimal digits of [z]. *)
Fixpoint hex (n : nat) (z : Z) (acc : string) : string :=
  match n with
  | O => acc
  | S n' => hex n' (z / 16) (String (hex_digit (z mod 16)) acc)
  end.

Fixpoint unhex (s : string) (acc : Z) : option Z :=
  match s with
  | EmptyString => Some acc
  | String c r =>
      if is_hex c then
        unhex r (16 * acc + (if Ascii.is_nat c is Some d then Z.of_nat d
                             else Z.of_N (N_of_ascii c) - 87))
      else None
  end.

(** Stand-ins: a commit is named after its time, a time is printed as 16
    digits, and parsed back from them. *)
#[export] Instance toy : Params := {|
  commit_id c := hex 40 (author_date c) "";
  format_ai t := hex 16 t "";
  js_Date_parse s := unhex (trim s) 0;
|}.

Definition sha_a : string := hex 40 1000 "".

Definition commit_a : CommitObject :=
  {| tree := {[ "package.json" := "{}"; "README.md" := "hello" ]};
     parents := []; subject := "initial"; author_date := 1000 |}.

Definition remote0 : Remote :=
  {| r_objects := {[ sha_a := commit_a ]};
     r_heads := {[ "master" := sha_a ]};
     r_HEAD := "master" |}.

Definition world0 : World :=
  {| origin := remote0; disk := ∅; clock := 5000; tmpdir := "/tmp";
     RENOVATE_TMPDIR := JUndefined; NODE_ENV := JStr "test" |}.

Definition args0 : Config :=
  {| platform := JStr "git"; repository := JStr "some/repo";
     url := JStr "https://example.com/some/repo.git";
     gitAuthor := Some {| name := "Bot"; address := "bot@example.com" |};
     baseBranch := JUndefined |}.

Definition dir0 : path := ["/tmp"; "git"; "some/repo"].

Definition run {A} (m : M World A) (st : State World) : State World :=
  (m st).2.

(** After [initRepo]; after a branch is created at the tip of the base
    branch; after the base branch has moved on by one commit. *)

Definition st1 : State World := run (initRepo args0) (new_Storage world0).
Definition st2 : State World := run (createBranch "renovate/x" sha_a) st1.
Definition st3 : State World :=
  run (commitFilesToBranch "master" [mkFile "package.json" "{ }"] "bump"
                           JUndefined) st2.

Definition copy_of (st : State World) : WorkCopy :=
  default (clone remote0) (copy st).

(** The same update committed twice to a branch of its own. *)
Definition files0 : list FileChange :=
  [mkFile "package.json" "{ }"; mkFile "yarn.lock" "# lock"].
Definition update0 : M World unit :=
  commitFilesToBranch "renovate/x" files0 "Update dependencies" JUndefined.
Definition st4 : State World := run update0 st1.
Definition st5 : State World := run update0 st4.

(** The commit [master] names once it has moved on. *)
Definition sha_b : string :=
  default sha_a (fst <$> resolve_commit (copy_of st3) "master").
Definition commit_b : CommitObject :=
  default commit_a (snd <$> resolve_commit (copy_of st3) "master").

(** The engine calls whose replies the examples follow. *)
Definition probe_master : M World bool := branchExists (JStr "master").
Definition list_master : M World string :=
  git_call (Raw ["ls-tree"; "-r"; "--name-only"; "origin/master"]).
Definition drop_remote : M World string :=
  git_call (Raw ["push"; "--delete"; "origin"; "renovate/x"]).

(** Before [initRepo]; and after the update branch is merged. *)
Definition st0 : State World := new_Storage world0.
Definition st6 : State World := run (mergeBranch "renovate/x") st4.

(** A later run, outside the test environment: the clone is still in its
    directory, and the remote has since lost a branch and gained one. *)
Definition remote1 : Remote :=
  {| r_objects := r_objects (origin (world st3));
     r_heads := <["next" := sha_a]>
                  (delete "renovate/x" (r_heads (origin (world st3))));
     r_HEAD := "master" |}.
Definition world1 : World :=
  {| origin := remote1; disk := disk (world st3);
     clock := clock (world st3); tmpdir := "/tmp";
     RENOVATE_TMPDIR := JUndefined; NODE_ENV := JStr "production" |}.

End Scenario.

(** ** Facts about the string operations *)

Lemma falsy_iff (v : jstr) :
  truthy v = false ↔ v = JUndefined ∨ v = JNull ∨ v = JStr "".
Proof.
  destruct v as [| |s]; simpl; [naive_solver..|].
  destruct (decide (s = "")) as [->|Hs]; [naive_solver|].
  split; [done|]. intros [?|[?|?]]; congruence.
Qed.

Lemma append_nil (s : string) : "" +:+ s = s.
Proof. reflexivity. Qed.

Lemma append_cons (a : ascii) (p s : string) :
  String a p +:+ s = String a (p +:+ s).
Proof. reflexivity. Qed.

Lemma strip_prefix_app (p s : string) : strip_prefix p (p +:+ s) = Some s.
Proof.
  induction p as [|a p IH]; simpl; [done|].
  destruct (decide (a = a)); [apply IH|done].
Qed.

Lemma strip_prefix_Some (p s r : string) :
  strip_prefix p s = Some r → s = p +:+ r.
Proof.
  revert s. induction p as [|a p IH]; intros [|b s]; simpl;
    rewrite ?append_nil, ?append_cons; try congruence.
  destruct (decide (a = b)) as [->|]; [|done].
  intros Hr. by rewrite (IH _ Hr).
Qed.

Lemma localName_origin (b : string) : localName ("origin/" +:+ b) = b.
Proof. unfold localName, replace_anchored. by rewrite strip_prefix_app. Qed.

Lemma replace_unfold (pat rep s : string) :
  replace pat rep s =
  match strip_prefix pat s with
  | Some rest => rep +:+ rest
  | None => match s with
            | String c r => String c (replace pat rep r)
            | EmptyString => EmptyString
            end
  end.
Proof. by destruct s. Qed.

Lemma replace_prefix (p s : string) : replace p "" (p +:+ s) = s.
Proof.
  rewrite replace_unfold. by rewrite strip_prefix_app.
Qed.

Lemma trimEnd_line (s : string) : trimEnd (s +:+ nl) = trimEnd s.
Proof.
  induction s as [|c s IH]; [done|].
  rewrite append_cons. cbn [trimEnd]. by rewrite IH.
Qed.

(** The line feed that ends a reply of the engine is trimmed away. *)
Lemma trim_line (s : string) : trim (s +:+ nl) = trim s.
Proof.
  unfold trim. induction s as [|c s IH]; [done|].
  rewrite append_cons. cbn [trimStart]. destruct (is_ws c); [done|].
  rewrite <- append_cons. apply trimEnd_line.
Qed.

(** What [initRepo] makes of the reply of [symbolic-ref]. *)
Lemma default_branch_of_symbolic_ref (h : string) :
  trimmed h →
  trim (replace "refs/remotes/origin/" "" ("refs/remotes/origin/" +:+ h +:+ nl))
  = h.
Proof. intros Hh. by rewrite replace_prefix, trim_line. Qed.

(** [split] and [filter(Boolean)] undo the line-per-path listing when no
    path is empty or holds a line feed. *)
Lemma split_line (p rest : string) :
  no_LF p = true → split LF (p +:+ nl +:+ rest) = p :: split LF rest.
Proof.
  induction p as [|c p IH]; intros Hp.
  - change ("" +:+ nl +:+ rest) with (String LF rest). cbn [split].
    by destruct (decide (LF = LF)).
  - change (String c p +:+ nl +:+ rest) with (String c (p +:+ nl +:+ rest)).
    cbn [split]. simpl in Hp.
    destruct (decide (c = LF)); [done|]. by rewrite IH.
Qed.

Lemma split_filter_lines (ps : list string) :
  forallb listable ps = true →
  filter_Boolean (split LF (SimGit.lines ps)) = ps.
Proof.
  induction ps as [|p ps IH]; [done|]. simpl.
  intros [[Hne Hlf]%andb_prop Hps]%andb_prop.
  rewrite split_line by done. unfold filter_Boolean in *. simpl.
  rewrite Hne. f_equal. by apply IH.
Qed.

(** From here on the string operations are used through their lemmas. *)
#[global] Arguments strip_prefix : simpl never.
#[global] Arguments replace : simpl never.
#[global] Arguments trim : simpl never.
#[global] Arguments SimGit.is_sha : simpl never.

(** ** The class against any engine *)

Create HintDb keeps_db.

Ltac unfold_M :=
  unfold mbind, M_bind, mret, M_ret, try_catch, throw, get_config,
    set_config, read in *.

Section MonadFacts.
Context {W : Type} `{RT : Runtime W}.
Implicit Types (st : State W).

Lemma bind_Ok {A B} (m : M W A) (f : A → M W B) st (y : B) st' :
  (m ≫= f) st = (Ok y, st') ↔
  ∃ x st1, m st = (Ok x, st1) ∧ f x st1 = (Ok y, st').
Proof.
  unfold mbind, M_bind. destruct (m st) as [[x|e] st1]; split.
  - eauto.
  - by intros (? & ? & [= <- <-] & ?).
  - done.
  - by intros (? & ? & ? & ?).
Qed.

Lemma bind_run {A B} (m : M W A) (f : A → M W B) st (x : A) st1 :
  m st = (Ok x, st1) → (m ≫= f) st = f x st1.
Proof. unfold mbind, M_bind. by intros ->. Qed.

Lemma bind_Throw {A B} (m : M W A) (f : A → M W B) st e st1 :
  m st = (Throw e, st1) → (m ≫= f) st = (Throw e, st1).
Proof. unfold mbind, M_bind. by intros ->. Qed.

Lemma try_catch_inv {A} (body : M W A) (handler : exn → M W A) st
    (r : outcome A) st' :
  try_catch body handler st = (r, st') →
  (∃ a, body st = (Ok a, st') ∧ r = Ok a) ∨
  (∃ e s, body st = (Throw e, s) ∧ handler e s = (r, st')).
Proof.
  unfold try_catch. destruct (body st) as [[a|e] s].
  - intros [= <- <-]. eauto.
  - eauto.
Qed.

Lemma keeps_bind {X A B} (p : State W → X) (m : M W A) (f : A → M W B) :
  keeps p m → (∀ a, keeps p (f a)) → keeps p (m ≫= f).
Proof.
  intros Hm Hf st r st'. unfold mbind, M_bind.
  destruct (m st) as [[a|e] st1] eqn:E.
  - intros Hr. rewrite (Hf _ _ _ _ Hr). eapply Hm, E.
  - intros [= <- <-]. eapply Hm, E.
Qed.

Lemma keeps_try_catch {X A} (p : State W → X) (m : M W A) (h : exn → M W A) :
  keeps p m → (∀ e, keeps p (h e)) → keeps p (try_catch m h).
Proof.
  intros Hm Hh st r st'. unfold try_catch.
  destruct (m st) as [[a|e] st1] eqn:E.
  - intros [= <- <-]. eapply Hm, E.
  - intros Hr. rewrite (Hh _ _ _ _ Hr). eapply Hm, E.
Qed.

Lemma keeps_on_world {X A} (p : State W → X) (f : W → outcome A * W) tr :
  session_only p → keeps p (on_world f tr).
Proof.
  intros Hp st r st'. unfold on_world. destruct (f (world st)).
  intros [= <- <-]. apply Hp.
Qed.

Lemma keeps_git_call {X A} (p : State W → X) (c : call A) :
  session_only p → keeps p (git_call c).
Proof.
  intros Hp st r st'. unfold git_call. destruct (git st).
  - by apply keeps_on_world.
  - by intros [= <- <-].
Qed.

Lemma keeps_js_path_join {X} (p : State W → X) parts :
  keeps p (js_path_join parts).
Proof.
  induction parts as [|[| |s] parts IH]; simpl;
    try (by intros st r st' [= <- <-]).
  apply keeps_bind; [done|]. by intros a st r st' [= <- <-].
Qed.

Lemma keeps_if {X A} (p : State W → X) (c : bool) (m1 m2 : M W A) :
  keeps p m1 → keeps p m2 → keeps p (if c then m1 else m2).
Proof. by destruct c. Qed.

End MonadFacts.

#[global] Hint Resolve keeps_try_catch keeps_git_call keeps_on_world
  keeps_js_path_join keeps_if : keeps_db.
#[global] Hint Extern 1 (keeps _ (_ ≫= _)) =>
  apply keeps_bind; [|intros ?] : keeps_db.
#[global] Hint Extern 1 (keeps _ (match ?x with _ => _ end)) =>
  destruct x : keeps_db.
#[global] Hint Extern 2 (session_only _) =>
  (intros ? ? ?; reflexivity) : keeps_db.
#[global] Hint Extern 5 (keeps _ _) =>
  (intros ? ? ? [= <- <-]; reflexivity) : keeps_db.

(** Proof steps: split a sequence that resolved at its first bind; carry
    the component [p] of the session over a step that keeps it. *)
Ltac step H a s Hs :=
  apply bind_Ok in H; destruct H as (a & s & Hs & H).

Ltac kp p Hn :=
  match type of Hn with
  | ?m ?s = (_, ?s') =>
      let K := fresh "K" in
      assert (K : keeps p m) by (eauto 30 with keeps_db);
      apply K in Hn
  end.

Section StorageFacts.
Context {W : Type} `{RT : Runtime W}.
Implicit Types (st : State W) (b : jstr).

(** An engine call touches the world and the trace only. *)
Lemma git_call_inv {A} (c : call A) st (r : outcome A) st' :
  git_call c st = (r, st') →
  config st' = config st ∧ git st' = git st ∧ repoDir st' = repoDir st ∧
  ((git st = None ∧ st' = st ∧ r = Throw (TypeError "git")) ∨
   (∃ d, git st = Some d ∧ git_exec d c (world st) = (r, world st') ∧
         trace st' = trace st ++ [Called c])).
Proof.
  unfold git_call, on_world. destruct (git st) as [d|] eqn:Hg.
  - destruct (git_exec d c (world st)) as [r' w] eqn:He.
    intros [= <- <-]. simpl. eauto 10.
  - intros [= <- <-]. eauto 10.
Qed.

Lemma branchExists_run b st :
  branchExists b st =
  match git_call (Raw ["show-branch"; "origin/" +:+ to_string b]) st with
  | (Ok _, st1) => (Ok true, st1)
  | (Throw _, st1) => (Ok false, st1)
  end.
Proof.
  unfold branchExists. unfold_M.
  by destruct (git_call _ st) as [[?|?] ?].
Qed.

Lemma branchExists_config b st :
  config (branchExists b st).2 = config st.
Proof.
  rewrite branchExists_run.
  destruct (git_call _ st) as [r st1] eqn:Hc.
  apply git_call_inv in Hc as (? & _). by destruct r.
Qed.

(** C10 [setBaseBranch]: a falsy argument (exactly [undefined], [null] and
    the empty string) changes nothing; a truthy one becomes the base
    branch; no other field of the configuration, and nothing else of the
    session, changes in either case, and no engine call is made. *)
Theorem setBaseBranch_frame (branchName : jstr) st :
  (truthy branchName = false ↔
   branchName = JUndefined ∨ branchName = JNull ∨ branchName = JStr "") ∧
  ∃ st', setBaseBranch branchName st = (Ok tt, st') ∧
    (if truthy branchName
     then baseBranch (config st') = branchName
     else st' = st) ∧
    platform (config st') = platform (config st) ∧
    repository (config st') = repository (config st) ∧
    url (config st') = url (config st) ∧
    gitAuthor (config st') = gitAuthor (config st) ∧
    git st' = git st ∧ repoDir st' = repoDir st ∧
    world st' = world st ∧ trace st' = trace st.
Proof.
  split; [apply falsy_iff|].
  unfold setBaseBranch. destruct (truthy branchName); unfold_M; eauto 12.
Qed.

(** C4 [branchExists]: it always resolves, never rejects; the value is
    [true] exactly when the engine resolves [show-branch origin/b], and
    [false] on every failure of that call, a [null] handle included. *)
Theorem branchExists_never_throws b st :
  let probe := git_call (Raw ["show-branch"; "origin/" +:+ to_string b]) in
  ∃ (r : bool) st', branchExists b st = (Ok r, st') ∧ st' = (probe st).2 ∧
    (r = true ↔ ∃ out, (probe st).1 = Ok out) ∧
    (r = false ↔ ∃ e, (probe st).1 = Throw e).
Proof.
  intros probe. rewrite branchExists_run. fold probe.
  destruct (probe st) as [[out|e] st1]; simpl.
  - exists true, st1. repeat split; eauto; try done.
    by intros [? ?].
  - exists false, st1. repeat split; eauto; try done.
    by intros [? ?].
Qed.

(** C8 [getBranchLastCommitTime]: it always resolves; the date is the one
    parsed from the engine's [%ai] line for [origin/b] when that call
    resolves, and the current time on every failure. *)
Theorem getBranchLastCommitTime_never_throws (branchName : string) st :
  let probe :=
    git_call (Show ["-s"; "--format=%ai"; "origin/" +:+ branchName]) in
  ∃ (d : Date) st', getBranchLastCommitTime branchName st = (Ok d, st') ∧
    st' = (probe st).2 ∧
    match (probe st).1 with
    | Ok time => d = mkDate (Date_parse time)
    | Throw _ => d = mkDate (Some (Date_now (world st')))
    end.
Proof.
  intros probe. unfold getBranchLastCommitTime. unfold_M. fold probe.
  destruct (probe st) as [[time|e] st1]; simpl; eauto.
Qed.

(** C5 [getFile]: it always resolves.  With [st1] the state after the
    existence check (made for a truthy branch only), the value is the reply
    of [show origin/<branch>:<path>] when the branch passed the check and
    the call resolves, and [null] when the check fails or the call rejects. *)
Theorem getFile_absence_not_failure (filePath : string) b st :
  let rev := "origin/" +:+ to_string (or_else b (baseBranch (config st))) in
  let probe := git_call (Show [(rev +:+ ":") +:+ filePath]) in
  let checked := if truthy b then (branchExists b st).1 else Ok true in
  let st1 := if truthy b then (branchExists b st).2 else st in
  ∃ (r : option string) st', getFile filePath b st = (Ok r, st') ∧
    match r with
    | Some content => checked = Ok true ∧ (probe st1).1 = Ok content
    | None => checked = Ok false ∨ ∃ e, (probe st1).1 = Throw e
    end.
Proof.
  intros rev probe checked st1. unfold getFile.
  set (lookup := try_catch _ _).
  assert (Hlookup : ∀ s, config s = config st →
    ∃ (r : option string) s', lookup s = (Ok r, s') ∧
      match r with
      | Some content => (probe s).1 = Ok content
      | None => ∃ e, (probe s).1 = Throw e
      end).
  { intros s Hs. subst lookup. unfold_M. rewrite Hs. fold rev. fold probe.
    destruct (probe s) as [[content|e] s']; simpl;
      [exists (Some content), s' | exists None, s']; eauto. }
  subst checked st1. destruct (truthy b).
  - pose proof (branchExists_config b st) as Hcfg.
    unfold mbind, M_bind. rewrite branchExists_run in *.
    destruct (git_call _ st) as [[out|e] s1]; simpl in *.
    + destruct (Hlookup s1 Hcfg) as (r & s' & -> & Hr).
      exists r, s'. split; [done|]. destruct r; eauto.
    + exists None, s1. unfold mret, M_ret. eauto.
  - destruct (Hlookup st eq_refl) as (r & s' & -> & Hr).
    exists r, s'. split; [done|]. destruct r; eauto.
Qed.


(** *** [initRepo] *)

(** C9 [initRepo]: when it resolves, the base branch of the session is
    set: it is the configured one when that is truthy; otherwise it is what
    the last engine call, [symbolic-ref refs/remotes/origin/HEAD], replied,
    with the prefix [refs/remotes/origin/] removed and trimmed (so the
    branch name itself, for a reply of the form git gives); in both cases it
    is a string, not [undefined] or [null], and the rest of the
    configuration is the one passed in. *)
Theorem initRepo_resolves_baseBranch (args : Config) st st' :
  initRepo args st = (Ok tt, st') →
  config st' = with_baseBranch (baseBranch (config st')) args ∧
  (∃ name, baseBranch (config st') = JStr name) ∧
  if truthy (baseBranch args)
  then baseBranch (config st') = baseBranch args
  else ∃ d w out,
    git st' = Some d ∧
    git_exec d (Raw ["symbolic-ref"; "refs/remotes/origin/HEAD"]) w
      = (Ok out, world st') ∧
    baseBranch (config st')
      = JStr (trim (replace "refs/remotes/origin/" "" out)) ∧
    ∀ h, trimmed h → out = "refs/remotes/origin/" +:+ h +:+ nl →
         baseBranch (config st') = JStr h.
Proof.
  unfold initRepo. intros H.
  step H u0 s0 H0. step H u1 s1 H1. step H tmp s2 H2. step H dir s3 H3.
  step H u4 s4 H4. step H nt s5 H5. step H rf s6 H6. step H cl s7 H7.
  step H u8 s8 H8. step H u9 s9 H9. step H cfg s10 H10.
  step H bb s11 H11. step H cfg' s12 H12.
  injection H0 as _ <-. injection H1 as _ <-.
  kp (@config W) H2. kp (@config W) H3. kp (@config W) H4.
  kp (@config W) H5. kp (@config W) H6. kp (@config W) H7.
  kp (@config W) H8. kp (@config W) H9.
  injection H10 as <- <-. injection H12 as <- <-. injection H as <-.
  assert (Hargs : config s9 = args) by (simpl in *; congruence).
  rewrite Hargs in H11. simpl.
  destruct (truthy (baseBranch args)) eqn:Ht.
  - injection H11 as <- <-. rewrite Hargs.
    split; [done|]. split; [|done].
    destruct (baseBranch args); try done. eauto.
  - step H11 out s13 Hout. injection H11 as <- <-.
    apply git_call_inv in Hout as (Hc & Hg & _ & [(_ & _ & [=])|(d & Hd & He & _)]).
    rewrite Hc, Hargs. split; [done|]. split; [eauto|].
    exists d, (world s9), out. rewrite Hg. repeat split; try done.
    intros h Hh ->. by rewrite default_branch_of_symbolic_ref.
Qed.

Lemma set_git_then {A} (d : path) (rest : M W A) st (r : outcome A) st' :
  keeps (@git W) rest → (set_git d;; rest) st = (r, st') → git st' = Some d.
Proof.
  intros Hk. unfold mbind, M_bind, set_git. intros H. by apply Hk in H.
Qed.

(** [initRepo] leaves the handle working in [repoDir]. *)
Lemma initRepo_initialised (args : Config) st st' :
  initRepo args st = (Ok tt, st') → initialised st'.
Proof.
  unfold initRepo. intros H.
  step H u0 s0 H0. step H u1 s1 H1. step H tmp s2 H2. step H dir s3 H3.
  step H u4 s4 H4. step H nt s5 H5. step H rf s6 H6. step H cl s7 H7.
  step H u8 s8 H8. step H u9 s9 H9. step H cfg s10 H10.
  step H bb s11 H11. step H cfg' s12 H12.
  exists dir. split.
  - assert (Hg8 : git s8 = Some dir).
    { destruct cl.
      - step H8 u s H8'. eapply set_git_then, H8. eauto with keeps_db.
      - assert (s8 = s7) as -> by (by injection H8).
        destruct rf; [|done].
        apply try_catch_inv in H7 as [(x & Hbody & _)|(e & s & _ & [=])].
        eapply set_git_then, Hbody. eauto 30 with keeps_db. }
    kp (@git W) H9. kp (@git W) H10. kp (@git W) H11. kp (@git W) H12.
    kp (@git W) H. congruence.
  - assert (Hr4 : repoDir s4 = Some dir) by (by injection H4 as _ <-).
    kp (@repoDir W) H5. kp (@repoDir W) H6. kp (@repoDir W) H7.
    kp (@repoDir W) H8. kp (@repoDir W) H9. kp (@repoDir W) H10.
    kp (@repoDir W) H11. kp (@repoDir W) H12. kp (@repoDir W) H.
    congruence.
Qed.

End StorageFacts.

(** ** The class on the reference model of the engine *)

Section SimFacts.
Import SimGit.
Context `{P : Params}.
Implicit Types (st : State World) (wc : WorkCopy) (r : Remote).

Lemma sim_call_run {A} (c : call A) st d wc :
  git st = Some d → disk (world st) !! d = Some wc →
  git_call c st =
  match step c (clock (world st)) wc (origin (world st)) with
  | Some (a, wc', r') => (Ok a, after (Some (d, wc')) r' (Called c) st)
  | None =>
      (Throw (Failure "git"), after None (origin (world st)) (Called c) st)
  end.
Proof.
  intros Hg Hd. unfold git_call, on_world. rewrite Hg. simpl. unfold exec.
  rewrite Hd. unfold after. rewrite Hg.
  by destruct (step _ _ _ _) as [[[a wc'] r']|].
Qed.

Lemma sim_call_Ok {A} (c : call A) st (a : A) st' :
  is_clone c = false → git_call c st = (Ok a, st') →
  ∃ d wc wc' r',
    git st = Some d ∧ disk (world st) !! d = Some wc ∧
    step c (clock (world st)) wc (origin (world st)) = Some (a, wc', r') ∧
    st' = after (Some (d, wc')) r' (Called c) st.
Proof.
  intros Hc. destruct (git st) as [d|] eqn:Hg.
  - destruct (disk (world st) !! d) as [wc|] eqn:Hd.
    + rewrite (sim_call_run c st d wc Hg Hd).
      destruct (step _ _ _ _) as [[[a' wc'] r']|] eqn:Hs; [|done].
      intros [= <- <-]. by exists d, wc, wc', r'.
    + unfold git_call, on_world. rewrite Hg. simpl. unfold exec. rewrite Hd.
      by destruct c.
  - unfold git_call. by rewrite Hg.
Qed.

Lemma copy_Some st d wc :
  git st = Some d → disk (world st) !! d = Some wc → copy st = Some wc.
Proof. intros Hg Hd. unfold copy. by rewrite Hg. Qed.

Lemma copy_after st d wc r c :
  git st = Some d → copy (after (Some (d, wc)) r c st) = Some wc.
Proof. unfold copy. simpl. intros ->. simpl. apply lookup_insert_eq. Qed.

Lemma is_hex_not_ws (c : ascii) : is_hex c = true → is_ws c = false.
Proof. by destruct c as [[] [] [] [] [] [] [] []]. Qed.

Lemma all_hex_trimmed (s : string) : all_hex s = true → trimmed s.
Proof.
  unfold trimmed, trim. intros Hs.
  assert (trimStart s = s) as ->.
  { destruct s as [|c s]; [done|]. simpl in *.
    apply andb_prop in Hs as [Hc _]. by rewrite (is_hex_not_ws c Hc). }
  induction s as [|c s IH]; [done|]. simpl in *.
  apply andb_prop in Hs as [Hc Hs]. rewrite (IH Hs).
  destruct s; [by rewrite (is_hex_not_ws c Hc)|done].
Qed.

Lemma is_sha_trimmed (s : string) : is_sha s = true → trimmed s.
Proof. intros [_ ?]%andb_prop. by apply all_hex_trimmed. Qed.

Lemma is_sha_origin (b : string) : is_sha ("origin/" +:+ b) = false.
Proof. unfold is_sha. apply andb_false_r. Qed.

Lemma resolve_origin wc (b : string) :
  resolve wc ("origin/" +:+ b) = remotes wc !! b.
Proof. unfold resolve. by rewrite is_sha_origin, strip_prefix_app. Qed.

Lemma resolve_sha wc (sha : string) :
  is_sha sha = true →
  resolve wc sha = (_ ← objects wc !! sha; Some sha).
Proof. unfold resolve. by intros ->. Qed.

(** A command that succeeded, seen through the session. *)
Lemma sim_call {A} (c : call A) st (a : A) st' :
  is_clone c = false → git_call c st = (Ok a, st') →
  ∃ wc wc' r',
    copy st = Some wc ∧
    step c (clock (world st)) wc (origin (world st)) = Some (a, wc', r') ∧
    copy st' = Some wc' ∧ origin (world st') = r' ∧
    config st' = config st ∧ git st' = git st ∧ repoDir st' = repoDir st.
Proof.
  intros Hc H.
  apply sim_call_Ok in H as (d & wc & wc' & r' & Hg & Hd & Hs & ->); [|done].
  exists wc, wc', r'. repeat split; try done.
  - by apply copy_Some with d.
  - by apply copy_after.
Qed.

Lemma reset_hard_refs wc wc0 :
  reset_hard wc = Some wc0 →
  objects wc0 = objects wc ∧ heads wc0 = heads wc ∧
  remotes wc0 = remotes wc ∧ HEAD wc0 = HEAD wc.
Proof.
  unfold reset_hard. destruct (head_sha wc); [|done]. simpl.
  destruct (objects wc !! _); [|done]. by intros [= <-].
Qed.

(** What the three engine calls of [createBranch name rev] make of the
    working copy and of the remote, when they all succeed. *)
Lemma createBranch_Ok (b rev : string) st st1 :
  createBranch b rev st = (Ok tt, st1) →
  ∃ wc wc0 s c,
    copy st = Some wc ∧ reset_hard wc = Some wc0 ∧
    resolve_commit wc0 rev = Some (s, c) ∧
    config st1 = config st ∧ git st1 = git st ∧
    copy st1 = Some
      (with_refs (<[b := s]> (heads wc0)) (<[b := s]> (remotes wc0))
                 (OnBranch b) (switch_to c wc0)) ∧
    r_heads (origin (world st1)) = <[b := s]> (r_heads (origin (world st))).
Proof.
  unfold createBranch. intros H.
  step H u0 sa Ha. step H u1 sb Hb.
  apply sim_call in Ha
    as (wc & wca & ra & Hcp & Ha & Hcpa & Hra & Hca & Hga & _); [|done].
  apply sim_call in Hb
    as (wc' & wcb & rb & Hcp' & Hb & Hcpb & Hrb & Hcb & Hgb & _); [|done].
  apply sim_call in H
    as (wc'' & wc1 & r1 & Hcp'' & H & Hcp1 & Hr1 & Hc1 & Hg1 & _); [|done].
  rewrite Hcpa in Hcp'. injection Hcp' as <-.
  rewrite Hcpb in Hcp''. injection Hcp'' as <-.
  simpl in Ha, Hb, H. unfold only, checkout_B, push in *.
  simplify_option_eq.
  match goal with x : (string * CommitObject)%type |- _ =>
    destruct x as [s c] end.
  simplify_eq/=. rewrite lookup_insert_eq in *. simplify_eq.
  do 4 eexists. split; [exact Hcp|]. do 2 (split; [eassumption|]).
  repeat split; try congruence.
  - by rewrite Hcp1.
  - match goal with E : with_push _ _ _ _ = _ |- _ => rewrite <- E end.
    simpl. congruence.
Qed.


(** [branchExists] on the model: whether [origin/<name>] names a commit. *)
Lemma branchExists_sim (name : jstr) st d wc :
  git st = Some d → disk (world st) !! d = Some wc →
  (branchExists name st).1 =
  Ok (bool_decide (is_Some (resolve_commit wc ("origin/" +:+ to_string name)))).
Proof.
  intros Hg Hd. rewrite branchExists_run.
  rewrite (sim_call_run _ st d wc Hg Hd). simpl.
  by destruct (resolve_commit wc _) as [[s c]|].
Qed.

(** [getFileList] on the model: the paths of the tree at the tip of
    [origin/<branch>], when each can stand on a line of its own. *)
Lemma getFileList_sim (name : jstr) st wc :
  copy st = Some wc →
  (getFileList name st).1 =
  Ok match resolve_commit wc
             ("origin/" +:+ to_string (or_else name (baseBranch (config st))))
     with
     | Some (_, c) =>
         if forallb listable (tree_paths (tree c))
         then tree_paths (tree c)
         else filter_Boolean (split LF (lines (tree_paths (tree c))))
     | None => []
     end.
Proof.
  intros Hcp. unfold copy in Hcp.
  destruct (git st) as [d|] eqn:Hg; [|done]. simpl in Hcp.
  unfold getFileList.
  rewrite (bind_run get_config _ st (config st) st) by done.
  set (branch := or_else name (baseBranch (config st))).
  unfold mbind, M_bind.
  destruct (branchExists branch st) as [res st1] eqn:Hb.
  rewrite branchExists_run, (sim_call_run _ st d wc Hg Hcp) in Hb.
  simpl in Hb.
  destruct (resolve_commit wc ("origin/" +:+ to_string branch))
    as [[s c]|] eqn:Hrev; simpl in Hb; injection Hb as <- <-; [|done].
  erewrite sim_call_run; [|done|apply lookup_insert_eq].
  simpl. rewrite Hrev. simpl. unfold mret, M_ret. simpl. f_equal.
  destruct (forallb listable _) eqn:Hl; [|done].
  by apply split_filter_lines.
Qed.

Lemma delete_local_remotes (b : string) wc wc' :
  delete_local b wc = Some wc' → remotes wc' = remotes wc.
Proof.
  unfold delete_local. intros H. simplify_option_eq.
  by destruct (contains _ _ _); simplify_eq.
Qed.


(** *** Staleness *)

Lemma reaches_refl os fuel (s : string) : reaches os fuel s s = true.
Proof. destruct fuel; simpl; by rewrite bool_decide_eq_true_2. Qed.

Lemma listed_localName (keep : string → bool) (m : gmap string string)
    (b : string) :
  b ∈ map localName
        ((λ kv : string * string, "origin/" +:+ kv.1) <$>
         List.filter (λ kv : string * string, keep kv.2) (map_to_list m)) ↔
  ∃ tip, m !! b = Some tip ∧ keep tip = true.
Proof.
  rewrite list_elem_of_In, in_map_iff. split.
  - intros (x & <- & Hx). apply list_elem_of_In, list_elem_of_fmap in Hx
      as ([k tip] & -> & Hk).
    apply list_elem_of_In, filter_In in Hk as [Hk Hkeep].
    apply list_elem_of_In, elem_of_map_to_list in Hk.
    rewrite localName_origin. eauto.
  - intros (tip & Hb & Hkeep). exists ("origin/" +:+ b).
    split; [apply localName_origin|].
    apply list_elem_of_In, list_elem_of_fmap. exists (b, tip).
    split; [done|]. apply list_elem_of_In, filter_In. split; [|done].
    by apply list_elem_of_In, elem_of_map_to_list.
Qed.

(** [isBranchStale] on the model, when the base branch names commit [s]. *)
Lemma isBranchStale_sim (b : string) st wc s c :
  copy st = Some wc →
  resolve_commit wc (to_string (baseBranch (config st))) = Some (s, c) →
  ∃ (r : bool) st', isBranchStale b st = (Ok r, st') ∧
    (r = true ↔
     ¬ ∃ tip, remotes wc !! b = Some tip ∧ contains wc s tip = true).
Proof.
  intros Hcp Hbase. unfold copy in Hcp.
  destruct (git st) as [d|] eqn:Hg; [|done]. simpl in Hcp.
  unfold isBranchStale. rewrite (bind_run get_config _ st (config st) st) by done.
  erewrite bind_run; [|by erewrite sim_call_run by done; simpl; rewrite Hbase].
  unfold mret, M_ret. do 2 eexists. split; [done|].
  unfold includes. rewrite negb_true_iff, bool_decide_eq_false.
  by rewrite listed_localName.
Qed.

Lemma resolve_reset wc wc0 (rev : string) :
  reset_hard wc = Some wc0 → resolve wc0 rev = resolve wc rev.
Proof.
  intros (Ho & Hh & Hr & HH)%reset_hard_refs.
  unfold resolve, head_sha. by rewrite Ho, Hh, Hr, HH.
Qed.

(** A revision that names [s] still does once branch [b] and its
    remote-tracking ref are set to [s] and [b] is checked out. *)
Lemma resolve_created wc (b s rev : string) c :
  resolve wc rev = Some s →
  resolve (with_refs (<[b := s]> (heads wc)) (<[b := s]> (remotes wc))
                     (OnBranch b) (switch_to c wc)) rev = Some s.
Proof.
  unfold resolve, head_sha. simpl.
  destruct (is_sha rev); [done|].
  destruct (strip_prefix "origin/" rev) as [k|].
  - intros Hk. destruct (decide (b = k)) as [->|Hne].
    + apply lookup_insert_eq.
    + by rewrite lookup_insert_ne.
  - destruct (decide (rev = "HEAD")); [intros _; apply lookup_insert_eq|].
    intros Hk. destruct (decide (b = rev)) as [->|Hne].
    + apply lookup_insert_eq.
    + by rewrite lookup_insert_ne.
Qed.


(** *** Committing files *)

Lemma overlay_snoc files f (t : gmap string string) :
  overlay (files ++ [f]) t = <[file_name f := contents f]> (overlay files t).
Proof. unfold overlay. by rewrite foldl_app. Qed.

Lemma overlay_other files (t : gmap string string) (k : string) :
  k ∉ map file_name files → overlay files t !! k = t !! k.
Proof.
  induction files as [|f files IH] using rev_ind; [done|].
  rewrite overlay_snoc, map_app, elem_of_app. simpl. intros Hk.
  rewrite lookup_insert_ne; [apply IH; tauto|].
  intros <-. apply Hk. right. apply list_elem_of_here.
Qed.

Lemma overlay_written files (t t' : gmap string string) (k : string) :
  k ∈ map file_name files → overlay files t !! k = overlay files t' !! k.
Proof.
  induction files as [|f files IH] using rev_ind; [by intros ?%elem_of_nil|].
  rewrite !overlay_snoc, map_app, elem_of_app. simpl. intros Hk.
  destruct (decide (file_name f = k)) as [<-|Hne].
  - by rewrite !lookup_insert_eq.
  - rewrite !lookup_insert_ne by done. apply IH.
    destruct Hk as [Hk|Hk]; [done|].
    apply list_elem_of_singleton in Hk. congruence.
Qed.

Lemma overlay_is_Some files (t : gmap string string) (k : string) :
  k ∈ map file_name files → is_Some (overlay files t !! k).
Proof.
  induction files as [|f files IH] using rev_ind; [by intros ?%elem_of_nil|].
  rewrite overlay_snoc, map_app, elem_of_app. simpl. intros Hk.
  destruct (decide (file_name f = k)) as [<-|Hne].
  - rewrite lookup_insert_eq. eauto.
  - rewrite lookup_insert_ne by done. apply IH.
    destruct Hk as [Hk|Hk]; [done|].
    apply list_elem_of_singleton in Hk. congruence.
Qed.

Lemma stage_snoc (wt ix : gmap string string) names (n : string) :
  stage wt (names ++ [n]) ix =
  match wt !! n with
  | Some text => <[n := text]> (stage wt names ix)
  | None => delete n (stage wt names ix)
  end.
Proof. unfold stage. by rewrite foldl_app. Qed.

Lemma stage_lookup (wt ix : gmap string string) names (k : string) :
  stage wt names ix !! k = if decide (k ∈ names) then wt !! k else ix !! k.
Proof.
  induction names as [|n names IH] using rev_ind.
  - simpl. destruct (decide (k ∈ [])) as [?%elem_of_nil|]; done.
  - rewrite stage_snoc. destruct (decide (n = k)) as [->|Hne].
    + rewrite decide_True by (apply elem_of_app; right; apply list_elem_of_here).
      destruct (wt !! k) eqn:Hk; [apply lookup_insert_eq|apply lookup_delete_eq].
    + assert (Hnk : stage wt names ix !! k =
                    if decide (k ∈ names ++ [n]) then wt !! k else ix !! k).
      { rewrite IH. destruct (decide (k ∈ names)) as [Hin|Hin].
        - rewrite decide_True; [done|]. apply elem_of_app; by left.
        - rewrite decide_False; [done|]. rewrite elem_of_app.
          intros [?|Hs]; [done|].
          apply list_elem_of_singleton in Hs. congruence. }
      destruct (wt !! n);
        [by rewrite lookup_insert_ne|by rewrite lookup_delete_ne].
Qed.

(** Staging the files just written gives the index the written files. *)
Lemma stage_overlay files (wt ix : gmap string string) :
  stage (overlay files wt) (map file_name files) ix = overlay files ix.
Proof.
  apply map_eq. intros k. rewrite stage_lookup.
  destruct (decide (k ∈ map file_name files)) as [Hin|Hin].
  - by apply overlay_written.
  - by rewrite overlay_other.
Qed.

Lemma stage_cons (wt ix : gmap string string) names (n : string) :
  stage wt (n :: names) ix =
  stage wt names match wt !! n with
                 | Some text => <[n := text]> ix
                 | None => delete n ix
                 end.
Proof. done. Qed.

Lemma add_stage names wc wc' :
  add names wc = Some wc' →
  wc' = with_files (stage (worktree wc) names (index wc)) (worktree wc) wc.
Proof.
  revert wc. induction names as [|n names IH]; intros wc.
  - simpl. intros [= <-]. by destruct wc.
  - rewrite stage_cons. simpl. destruct (worktree wc !! n) as [text|] eqn:Hn.
    + by intros ->%IH.
    + destruct (index wc !! n); [|done]. simpl. by intros ->%IH.
Qed.

Lemma write_files_sim files st d wc :
  repoDir st = Some d → git st = Some d →
  disk (world st) !! d = Some wc →
  ∃ st', write_files files st = (Ok tt, st') ∧
    config st' = config st ∧ git st' = git st ∧ repoDir st' = repoDir st ∧
    origin (world st') = origin (world st) ∧
    clock (world st') = clock (world st) ∧
    disk (world st') !! d =
      Some (with_files (index wc) (overlay files (worktree wc)) wc).
Proof.
  revert st wc. induction files as [|f files IH]; intros st wc Hr Hg Hd.
  - exists st. repeat split; try done. simpl. rewrite Hd. by destruct wc.
  - cbn [write_files].
    rewrite (bind_run get_repoDir _ st d st)
      by (unfold get_repoDir; by rewrite Hr).
    set (wc1 := with_files (index wc)
                  (<[file_name f := contents f]> (worktree wc)) wc).
    set (st1 := {| config := config st; git := git st; repoDir := repoDir st;
                   world := with_disk (<[d := wc1]> (disk (world st))) (world st);
                   trace := trace st ++ [] |}).
    assert (Hw : on_world (fs_writeFile (path_join [d; [file_name f]])
                                        (contents f)) [] st = (Ok tt, st1)).
    { unfold on_world, path_join. simpl. unfold writeFile.
      by rewrite last_snoc, removelast_last, Hd. }
    rewrite (bind_run _ _ _ _ _ Hw).
    destruct (IH st1 wc1) as (st' & Hrun & Hc & Hg' & Hr' & Ho & Hk & Hd');
      [done|done|apply lookup_insert_eq|].
    exists st'. repeat split; try done.
Qed.

(** A successful [commitFilesToBranch]: the tip of the branch on the
    remote has the tree of [origin/<parent>] with the files written over
    it. *)
Lemma commitFilesToBranch_tree (b : string) files (message : string)
    (parentBranch : jstr) st st1 :
  initialised st →
  commitFilesToBranch b files message parentBranch st = (Ok tt, st1) →
  ∃ t0, tracking_tree st (parent_of st parentBranch) = Some t0 ∧
        remote_tree (world st1) b = Some (overlay files t0) ∧
        config st1 = config st ∧ initialised st1.
Proof.
  intros (d0 & Hg0 & Hr0) H. unfold commitFilesToBranch in H.
  assert (Hdir : repoDir st = git st) by congruence.
  step H parent s0 H0.
  assert (s0 = st ∧ to_string parent = parent_of st parentBranch) as [-> Hp].
  { unfold parent_of. destruct parentBranch; unfold_M; by simplify_eq. }
  clear H0. rewrite Hp in H. clear Hp parent.
  step H u1 s1 Ha. step H u2 s2 Hb. step H u3 s3 Hw. step H u4 s4 Hd.
  step H u5 s5 He.
  apply sim_call in Ha
    as (wc & wca & ra & Hcp & Ha & Hcpa & Hra & Hca & Hga & Hda); [|done].
  apply sim_call in Hb
    as (wc' & wcb & rb & Hcp' & Hb & Hcpb & Hrb & Hcb & Hgb & Hdb); [|done].
  rewrite Hcpa in Hcp'. injection Hcp' as <-.
  (* the files are written into the work tree of the same clone *)
  assert (∃ d, git s2 = Some d ∧ repoDir s2 = Some d ∧
               disk (world s2) !! d = Some wcb) as (d & Hg2 & Hr2 & Hd2).
  { unfold copy in Hcpb. destruct (git s2) as [d|] eqn:Hg2; [|done].
    exists d. split; [done|]. split; [congruence|done]. }
  destruct (write_files_sim files s2 d wcb Hr2 Hg2 Hd2)
    as (s3' & Hw' & Hc3 & Hg3 & Hr3 & Ho3 & Hk3 & Hd3).
  assert (s3 = s3') as -> by congruence. clear Hw Hw'.
  apply sim_call in Hd
    as (wcc & wcd & rd & Hcpc & Hd & Hcpd & Hrd & Hcd & Hgd & Hdd); [|done].
  assert (wcc = with_files (index wcb) (overlay files (worktree wcb)) wcb)
    as ->.
  { unfold copy in Hcpc. rewrite Hg3, Hg2 in Hcpc. simpl in Hcpc. congruence. }
  apply sim_call in He
    as (wcd' & wce & re & Hcpd' & He & Hcpe & Hre & Hce & Hge & Hde); [|done].
  rewrite Hcpd in Hcpd'. injection Hcpd' as <-.
  apply sim_call in H
    as (wce' & wc1 & r1 & Hcpe' & H & Hcp1 & Hr1 & Hc1 & Hg1 & Hd1); [|done].
  rewrite Hcpe in Hcpe'. injection Hcpe' as <-.
  simpl in Ha, Hb, Hd, He, H. unfold only in *.
  (* reset, then checkout of the parent's commit [pc] *)
  destruct (reset_hard wc) as [wc0|] eqn:Hreset; simpl in Ha; [|done].
  assert (wca = wc0 ∧ ra = origin (world st)) as [-> ->] by (by simplify_eq).
  clear Ha. unfold checkout_B in Hb.
  destruct (resolve_commit wc0 _) as [[ps pc]|] eqn:Hparent; simpl in Hb;
    [|done].
  set (wc2 := with_refs (<[b:=ps]> (heads wc0)) (remotes wc0) (OnBranch b)
                        (switch_to pc wc0)) in *.
  assert (wcb = wc2 ∧ rb = origin (world s1)) as [-> ->] by (by simplify_eq).
  clear Hb.
  (* the index after [add] *)
  destruct (add _ _) as [wc4|] eqn:Hadd; simpl in Hd; [|done].
  assert (wcd = wc4 ∧ rd = origin (world s3')) as [-> ->] by (by simplify_eq).
  clear Hd. apply add_stage in Hadd. simpl in Hadd.
  rewrite stage_overlay in Hadd.
  assert (Hps : objects wc0 !! ps = Some pc).
  { unfold resolve_commit in Hparent. simplify_option_eq. done. }
  exists (tree pc). split.
  { unfold tracking_tree. rewrite Hcp. simpl.
    unfold resolve_commit in *.
    rewrite <- (resolve_reset _ _ _ Hreset).
    destruct (reset_hard_refs _ _ Hreset) as (<- & _).
    by rewrite Hparent. }
  split; [|split; [congruence|exists d0; split; congruence]].
  (* commit and push *)
  assert (∃ s c, heads wce !! b = Some s ∧ objects wce !! s = Some c ∧
                 tree c = overlay files (tree pc)) as (s & c & Hs & Hc & Ht).
  { unfold commit, head_sha in He. subst wc4. simpl in He.
    rewrite lookup_insert_eq in He. simpl in He.
    rewrite Hps in He. simpl in He.
    destruct (decide (overlay files (tree pc) = tree pc)) as [Heq|Hne];
      simpl in He.
    - exists ps, pc. assert (wce = _) as -> by (by simplify_eq). simpl.
      by rewrite lookup_insert_eq.
    - eexists _, _. assert (wce = _) as -> by (by simplify_eq).
      unfold advance. simpl. rewrite !lookup_insert_eq. done. }
  unfold push in H. rewrite Hs in H. simpl in H.
  assert (r1 = with_push b s wce (origin (world s5))) as -> by (by simplify_eq).
  unfold remote_tree. rewrite Hr1. simpl. rewrite lookup_insert_eq. simpl.
  rewrite (lookup_union_Some_l _ _ _ _ Hc). simpl. by rewrite Ht.
Qed.

(** C1 [commitFilesToBranch] twice: in an initialised session (the handle
    works in [repoDir], as [initRepo] leaves it), when two calls with the same
    arguments both succeed and [origin/<parentBranch>] has the same tree
    before the second call as before the first, the tip of the branch on
    the remote has the same tree after both, namely the parent's tree with
    the files written over it.  (The two commits differ in their time and
    name: the clock advances with every engine call.) *)
Theorem commitFilesToBranch_idempotent (b : string) files (message : string)
    (parentBranch : jstr) st st1 st2 :
  initialised st →
  commitFilesToBranch b files message parentBranch st = (Ok tt, st1) →
  commitFilesToBranch b files message parentBranch st1 = (Ok tt, st2) →
  tracking_tree st1 (parent_of st parentBranch)
    = tracking_tree st (parent_of st parentBranch) →
  ∃ t0 t,
    tracking_tree st (parent_of st parentBranch) = Some t0 ∧
    t = overlay files t0 ∧
    remote_tree (world st1) b = Some t ∧
    remote_tree (world st2) b = Some t.
Proof.
  intros Hinit H1 H2 Hsame.
  apply commitFilesToBranch_tree in H1 as (t0 & Ht0 & Ht1 & Hc1 & Hinit1);
    [|done].
  apply commitFilesToBranch_tree in H2 as (t0' & Ht0' & Ht2 & _); [|done].
  assert (Hp : parent_of st1 parentBranch = parent_of st parentBranch)
    by (unfold parent_of; by rewrite Hc1).
  rewrite Hp, Hsame, Ht0 in Ht0'. injection Ht0' as <-.
  by exists t0, (overlay files t0).
Qed.

End SimFacts.

(** ** The theorems at work on the concrete session *)

Section Witnesses.
Import SimGit Scenario.

Lemma commitFilesToBranch_idempotent_witness :
  ∃ t0 t,
    tracking_tree st1 "master" = Some t0 ∧
    t = overlay files0 t0 ∧
    remote_tree (world st4) "renovate/x" = Some t ∧
    remote_tree (world st5) "renovate/x" = Some t.
Proof.
  apply (commitFilesToBranch_idempotent (P := toy) "renovate/x" files0
           "Update dependencies" JUndefined st1 st4 st5).
  - exists dir0. split; vm_compute; reflexivity.
  - vm_compute. reflexivity.
  - vm_compute. reflexivity.
  - vm_compute. reflexivity.
Defined.





Lemma initRepo_resolves_baseBranch_witness :
  config st1 = with_baseBranch (baseBranch (config st1)) args0 ∧
  (∃ name, baseBranch (config st1) = JStr name) ∧
  ∃ d w out,
    git st1 = Some d ∧
    git_exec d (Raw ["symbolic-ref"; "refs/remotes/origin/HEAD"]) w
      = (Ok out, world st1) ∧
    baseBranch (config st1)
      = JStr (trim (replace "refs/remotes/origin/" "" out)) ∧
    ∀ h, trimmed h → out = "refs/remotes/origin/" +:+ h +:+ nl →
         baseBranch (config st1) = JStr h.
Proof.
  exact (initRepo_resolves_baseBranch (RT := runtime (H := toy)) args0
           (new_Storage world0) st1 ltac:(vm_compute; reflexivity)).
Defined.

(** *** The session, run *)

Example session_initRepo :
  initRepo args0 (new_Storage world0) = (Ok tt, st1) ∧
  baseBranch (config st1) = JStr "master" ∧
  git st1 = Some dir0 ∧ repoDir st1 = Some dir0.
Proof. vm_compute. repeat split; reflexivity. Qed.

Example session_branchExists :
  (branchExists (JStr "master") st1).1 = Ok true ∧
  (branchExists (JStr "renovate/x") st1).1 = Ok false ∧
  (branchExists (JStr "master") (new_Storage world0)).1 = Ok false.
Proof. vm_compute. repeat split; reflexivity. Qed.

Example session_getFile :
  (getFile "package.json" (JStr "master") st1).1 = Ok (Some "{}") ∧
  (getFile "package.json" JUndefined st1).1 = Ok (Some "{}") ∧
  (getFile "package.json" (JStr "renovate/x") st1).1 = Ok None ∧
  (getFile "yarn.lock" (JStr "master") st1).1 = Ok None ∧
  (getFile "yarn.lock" (JStr "renovate/x") st5).1 = Ok (Some "# lock").
Proof. vm_compute. repeat split; reflexivity. Qed.

Example session_getFileList :
  (getFileList (JStr "renovate/x") st1).1 = Ok [] ∧
  (getFileList (JStr "master") st1).1 = Ok ["README.md"; "package.json"] ∧
  (getFileList (JStr "renovate/x") st5).1
  = Ok ["yarn.lock"; "README.md"; "package.json"].
Proof. vm_compute. repeat split; reflexivity. Qed.

Example session_getBranchLastCommitTime :
  (getBranchLastCommitTime "master" st1).1 = Ok (mkDate (Some 1000)) ∧
  (getBranchLastCommitTime "renovate/x" st1).1
  = Ok (mkDate (Some (clock (world st1) + 1))).
Proof. vm_compute. repeat split; reflexivity. Qed.

Example session_setBaseBranch :
  baseBranch (config (run (setBaseBranch (JStr "next")) st1)) = JStr "next" ∧
  run (setBaseBranch (JStr "")) st1 = st1 ∧
  run (setBaseBranch JNull) st1 = st1 ∧
  run (setBaseBranch JUndefined) st1 = st1.
Proof. vm_compute. repeat split; reflexivity. Qed.

(** The two commits of the repeated update differ, their trees do not. *)
Example session_commit_twice :
  r_heads (origin (world st4)) !! "renovate/x"
    ≠ r_heads (origin (world st5)) !! "renovate/x" ∧
  remote_tree (world st4) "renovate/x" = remote_tree (world st5) "renovate/x".
Proof. vm_compute. split; [discriminate|reflexivity]. Qed.

(** [deleteBranch] rejects when the remote has no such branch: the failure
    is that of the remote deletion, and the local one is not attempted. *)
Example session_deleteBranch_missing :
  (deleteBranch "renovate/y" st3).1 = Throw (Failure "git") ∧
  trace (run (deleteBranch "renovate/y") st3)
  = trace st3 ++ [Called (Raw ["push"; "--delete"; "origin"; "renovate/y"])].
Proof. vm_compute. split; reflexivity. Qed.

End Witnesses.

(** * Further properties of the class *)

(** ** Against any engine *)

Section MoreStorageFacts.
Context {W : Type} `{RT : Runtime W}.
Implicit Types (st : State W) (b : jstr).

(** X1 [localName]: it removes one leading [origin/] and nothing else: a
    name with the prefix is the prefix followed by its local name, a name
    without it is returned as it is. *)
Theorem localName_strips_one_prefix (s : string) :
  (∀ name : string, localName ("origin/" +:+ name) = name) ∧
  (if startsWith s "origin/"
   then s = "origin/" +:+ localName s
   else localName s = s).
Proof.
  split; [apply localName_origin|].
  unfold startsWith, localName, replace_anchored.
  destruct (strip_prefix "origin/" s) as [r|] eqn:Hs; [|done].
  by apply strip_prefix_Some.
Qed.

Lemma split_no_LF (s : string) : Forall (λ p, no_LF p = true) (split LF s).
Proof.
  induction s as [|a s IH]; cbn [split]; [by repeat constructor|].
  destruct (decide (a = LF)) as [->|Hne]; [by constructor|].
  destruct (split LF s) as [|h t]; inversion IH; subst.
  - repeat constructor. simpl. by destruct (decide (a = LF)).
  - constructor; [|done]. simpl. by destruct (decide (a = LF)).
Qed.

(** X2 [getFileList]: whatever the engine replies, no entry of the result
    is empty and none holds a line feed. *)
Theorem getFileList_entries_listable b st (l : list string) st' :
  getFileList b st = (Ok l, st') → Forall (λ p, listable p = true) l.
Proof.
  unfold getFileList. intros H. step H cfg s0 H0. step H found s1 H1.
  destruct found.
  - step H files s2 H2. injection H as <- _.
    unfold filter_Boolean, listable. apply Forall_forall. intros p Hp.
    apply list_elem_of_In, filter_In in Hp as [Hp ->]. simpl.
    pose proof (split_no_LF files) as Hs.
    rewrite Forall_forall in Hs. by apply Hs, list_elem_of_In.
  - injection H as <- _. constructor.
Qed.

Lemma trimEnd_cons (c : ascii) (r : string) :
  trimEnd (String c r) =
  match trimEnd r with
  | EmptyString => if is_ws c then EmptyString else String c EmptyString
  | r' => String c r'
  end.
Proof. done. Qed.

Lemma trimEnd_idemp (s : string) : trimEnd (trimEnd s) = trimEnd s.
Proof.
  induction s as [|c s IH]; [done|]. rewrite trimEnd_cons.
  destruct (trimEnd s) as [|d t] eqn:Hs.
  - destruct (is_ws c) eqn:Hc; [done|]. rewrite trimEnd_cons. simpl.
    by rewrite Hc.
  - by rewrite trimEnd_cons, IH.
Qed.

Lemma trimStart_trimEnd (s : string) :
  trimStart s = s → trimStart (trimEnd s) = trimEnd s.
Proof.
  destruct s as [|c s]; [done|]. cbn [trimStart trimEnd].
  destruct (is_ws c) eqn:Hc.
  - intros Hs. exfalso.
    assert (Hlen : ∀ t, (String.length (trimStart t) ≤ String.length t)%nat).
    { clear. induction t as [|a t IH]; [done|]. cbn [trimStart].
      destruct (is_ws a); simpl in *; lia. }
    specialize (Hlen s). rewrite Hs in Hlen. simpl in Hlen. lia.
  - intros _. destruct (trimEnd s); cbn [trimStart]; by rewrite Hc.
Qed.

Lemma trimStart_idemp (s : string) : trimStart (trimStart s) = trimStart s.
Proof.
  induction s as [|c s IH]; [done|]. cbn [trimStart].
  destruct (is_ws c) eqn:Hc; [done|]. cbn [trimStart]. by rewrite Hc.
Qed.

Lemma trim_trimmed (s : string) : trimmed (trim s).
Proof.
  unfold trimmed, trim.
  rewrite (trimStart_trimEnd (trimStart s)) by apply trimStart_idemp.
  apply trimEnd_idemp.
Qed.

(** X3 [getBranchCommit]: the identifier it returns has no white space
    at either end, whatever the engine replies. *)
Theorem getBranchCommit_trimmed (branchName : string) st (sha : string) st' :
  getBranchCommit branchName st = (Ok sha, st') → trimmed sha.
Proof.
  unfold getBranchCommit. intros H. step H res s0 H0.
  injection H as <- _. apply trim_trimmed.
Qed.

Lemma keeps_get_repoDir {X} (p : State W → X) : keeps p get_repoDir.
Proof.
  intros st r st'. unfold get_repoDir.
  destruct (repoDir st); by intros [= <- <-].
Qed.

Lemma keeps_write_files {X} (p : State W → X) files :
  session_only p → keeps p (write_files files).
Proof.
  intros Hp. induction files as [|f files IH]; cbn [write_files].
  - by intros st r st' [= <- <-].
  - apply keeps_bind; [apply keeps_get_repoDir|]. intros d.
    apply keeps_bind; [by apply keeps_on_world|]. by intros _.
Qed.

#[local] Hint Resolve keeps_get_repoDir keeps_write_files : keeps_db.

(** X4 Only [initRepo] and [setBaseBranch] change the session: every other
    method, whether it resolves or rejects, leaves the configuration, the
    handle and [repoDir] as they were. *)
Theorem methods_keep_session :
  (∀ name sha, keeps (@session W) (createBranch name sha)) ∧
  (∀ name, keeps (@session W) (getBranchCommit name)) ∧
  keeps (@session W) getCommitMessages ∧
  (∀ name, keeps (@session W) (getFileList name)) ∧
  (∀ name, keeps (@session W) (branchExists name)) ∧
  (∀ prefix, keeps (@session W) (getAllRenovateBranches prefix)) ∧
  (∀ name, keeps (@session W) (isBranchStale name)) ∧
  (∀ name, keeps (@session W) (deleteBranch name)) ∧
  (∀ name, keeps (@session W) (mergeBranch name)) ∧
  (∀ name, keeps (@session W) (getBranchLastCommitTime name)) ∧
  (∀ file name, keeps (@session W) (getFile file name)) ∧
  (∀ name files message parent,
     keeps (@session W) (commitFilesToBranch name files message parent)).
Proof.
  repeat split; intros;
    unfold createBranch, getBranchCommit, getCommitMessages, getFileList,
      branchExists, getAllRenovateBranches, isBranchStale, deleteBranch,
      mergeBranch, getBranchLastCommitTime, getFile, commitFilesToBranch;
    eauto 40 with keeps_db.
Qed.

(** The methods started on a session without a handle. *)
Lemma git_call_null {A} (c : call A) st :
  git st = None → git_call c st = (Throw (TypeError "git"), st).
Proof. unfold git_call. by intros ->. Qed.

(** X5 Before [initRepo] (the handle is [null]) the queries that answer
    absence still do so, [false], [null], the empty list and the current
    time, and every other method rejects with a [TypeError]; none of them
    changes the session, the world or the trace. *)
Theorem methods_without_handle st (name : string) (opt : jstr)
    (file prefix sha message : string) (files : list FileChange) :
  git st = None →
  branchExists opt st = (Ok false, st) ∧
  getFile file opt st = (Ok None, st) ∧
  getFileList opt st = (Ok [], st) ∧
  getBranchLastCommitTime name st
    = (Ok (mkDate (Some (Date_now (world st)))), st) ∧
  getBranchCommit name st = (Throw (TypeError "git"), st) ∧
  getCommitMessages st = (Throw (TypeError "git"), st) ∧
  getAllRenovateBranches prefix st = (Throw (TypeError "git"), st) ∧
  isBranchStale name st = (Throw (TypeError "git"), st) ∧
  createBranch name sha st = (Throw (TypeError "git"), st) ∧
  deleteBranch name st = (Throw (TypeError "git"), st) ∧
  mergeBranch name st = (Throw (TypeError "git"), st) ∧
  commitFilesToBranch name files message opt st
    = (Throw (TypeError "git"), st).
Proof.
  intros Hg.
  assert (Hex : ∀ n, branchExists n st = (Ok false, st)).
  { intros n. by rewrite branchExists_run, git_call_null. }
  repeat split.
  - apply Hex.
  - unfold getFile. unfold_M.
    destruct (truthy opt); rewrite ?Hex; simpl;
      by rewrite ?git_call_null by done.
  - unfold getFileList. unfold_M. by rewrite Hex.
  - unfold getBranchLastCommitTime. unfold_M. by rewrite git_call_null.
  - unfold getBranchCommit. unfold_M. by rewrite git_call_null.
  - unfold getCommitMessages. by rewrite git_call_null.
  - unfold getAllRenovateBranches. unfold_M. by rewrite git_call_null.
  - unfold isBranchStale. unfold_M. by rewrite git_call_null.
  - unfold createBranch. unfold_M. by rewrite git_call_null.
  - unfold deleteBranch. unfold_M. by rewrite git_call_null.
  - unfold mergeBranch. unfold_M. by rewrite git_call_null.
  - unfold commitFilesToBranch. unfold_M.
    destruct opt; by rewrite git_call_null.
Qed.

(** *** [initRepo] *)

(** X6 [initRepo] with a [platform] or [repository] that is not a string:
    [path.join] throws, the method rejects with a [TypeError] before any
    engine or file-system call, and the session keeps its old handle and
    [repoDir], but [config] is already the new one. *)
Theorem initRepo_rejects_bad_path (args : Config) st :
  repo_path (world st) args = None →
  initRepo args st =
  (Throw (TypeError "path"),
   {| config := args; git := git st; repoDir := repoDir st;
      world := world st; trace := trace st |}).
Proof.
  unfold repo_path, initRepo. unfold_M. unfold cleanRepo, mret, M_ret. simpl.
  unfold or_else.
  destruct (truthy (env_RENOVATE_TMPDIR (world st)));
    [destruct (env_RENOVATE_TMPDIR (world st)) eqn:He; try done|];
    destruct (platform args); try done;
    destruct (repository args); done.
Qed.

Lemma git_call_Ok_trace {A} (c : call A) st (a : A) st' :
  git_call c st = (Ok a, st') →
  trace st' = trace st ++ [Called c] ∧ git st' = git st ∧
  repoDir st' = repoDir st.
Proof.
  intros H. apply git_call_inv in H
    as (_ & Hg & Hr & [(_ & _ & [=])|(d & _ & _ & Ht)]). done.
Qed.

Lemma js_path_join_3 (t p r : string) st :
  js_path_join [JStr t; JStr p; JStr r] st = (Ok [t; p; r], st).
Proof. done. Qed.

(** X7 [initRepo] without a working copy to refresh (the environment is
    ['test'], or [repoDir] holds no [.git/HEAD]): when it resolves, the
    handle works in the directory made of the temporary directory, the
    platform and the repository; its first engine call is the clone, and
    every later one is a plumbing command ([raw]): nothing is fetched. *)
Theorem initRepo_clones_without_copy (args : Config) st st' (dir : path) :
  repo_path (world st) args = Some dir →
  env_NODE_ENV (world st) = JStr "test" ∨
    fs_exists (path_join [dir; [".git/HEAD"]]) (world st) = false →
  initRepo args st = (Ok tt, st') →
  repoDir st' = Some dir ∧ git st' = Some dir ∧
  ∃ rest,
    trace st' = trace st ++
      Called (Clone (to_string (url args)) "."
                    ["--depth=2"; "--no-single-branch"]) :: rest ∧
    Forall (λ c, ∃ a, c = Called (Raw a)) rest.
Proof.
  intros Hdir Hno H. unfold initRepo in H.
  step H u0 s0 H0. step H u1 s1 H1. step H tmp s2 H2. step H dir' s3 H3.
  step H u4 s4 H4. step H nt s5 H5. step H rf s6 H6. step H cl s7 H7.
  step H u8 s8 H8. step H u9 s9 H9. step H cfg s10 H10.
  step H bb s11 H11. step H cfg' s12 H12.
  injection H0 as _ <-. injection H1 as _ <-. injection H2 as <- <-.
  unfold repo_path in Hdir. cbn [world] in H3.
  destruct (or_else _ _) as [| |t]; try done.
  destruct (platform args) as [| |pf]; try done.
  destruct (repository args) as [| |rp]; try done.
  injection Hdir as <-. unfold path_join in Hno. simpl in Hno.
  rewrite js_path_join_3 in H3. injection H3 as <- <-.
  injection H4 as _ <-. injection H5 as <- <-. cbn [world] in H6.
  assert (rf = false ∧ s6 = {| config := args; git := git st;
            repoDir := Some [t; pf; rp]; world := world st;
            trace := trace st |}) as [-> ->].
  { destruct Hno as [Hno | Hno].
    - rewrite Hno, bool_decide_eq_false_2 in H6 by (by intros []).
      by injection H6 as <- <-.
    - destruct (bool_decide _); injection H6 as <- <-; [|done].
      cbn [world]. by rewrite Hno. }
  injection H7 as <- <-.
  step H8 u s H8a. step H8 u' sg H8b.
  unfold on_world in H8a. cbn [world] in H8a.
  destruct (fs_emptyDir _ _) as [[[]|e] w1]; [|done].
  injection H8a as _ <-. injection H8b as _ <-.
  apply git_call_Ok_trace in H8 as (Ht8 & Hg8 & Hr8).
  cbn [trace git repoDir] in Ht8, Hg8, Hr8.
  rewrite ?app_nil_r in Ht8.
  assert (∃ r9, trace s9 = trace s8 ++ r9 ∧ git s9 = git s8 ∧
                repoDir s9 = repoDir s8 ∧
                Forall (λ c, ∃ a, c = Called (Raw a)) r9)
    as (r9 & Ht9 & Hg9 & Hr9 & Hf9).
  { destruct (gitAuthor args) as [a|].
    - step H9 x1 a1 Ha1. step H9 x2 a2 Ha2. step H9 x3 a3 Ha3.
      injection H9 as _ <-.
      apply git_call_Ok_trace in Ha1 as (T1 & G1 & R1).
      apply git_call_Ok_trace in Ha2 as (T2 & G2 & R2).
      apply git_call_Ok_trace in Ha3 as (T3 & G3 & R3).
      eexists [_; _; _]. rewrite T3, T2, T1, <- !app_assoc. simpl.
      split; [done|]. split; [congruence|]. split; [congruence|].
      repeat constructor; eauto.
    - injection H9 as _ <-. exists []. by rewrite app_nil_r. }
  injection H10 as <- <-.
  assert (∃ r11, trace s11 = trace s9 ++ r11 ∧ git s11 = git s9 ∧
                 repoDir s11 = repoDir s9 ∧
                 Forall (λ c, ∃ a, c = Called (Raw a)) r11)
    as (r11 & Ht11 & Hg11 & Hr11 & Hf11).
  { destruct (truthy (baseBranch (config s9))).
    - injection H11 as _ <-. exists []. by rewrite app_nil_r.
    - step H11 out so Ho. injection H11 as _ <-.
      apply git_call_Ok_trace in Ho as (To & Go & Ro).
      eexists [_]. split; [exact To|]. split; [done|]. split; [done|].
      repeat constructor; eauto. }
  injection H12 as _ <-. injection H as <-. simpl.
  rewrite Hr11, Hr9, Hr8, Hg11, Hg9, Hg8. split; [done|]. split; [done|].
  exists (r9 ++ r11). rewrite Ht11, Ht9, Ht8, <- !app_assoc. simpl.
  split; [done|]. by apply Forall_app.
Qed.

(** *** The base branch as a default *)

(** X22 After [setBaseBranch] with a non-empty name, that branch is what
    [getFileList] lists when it is given no name (or any other falsy
    value), and what [commitFilesToBranch] builds on when it is given no
    parent branch. *)
Theorem setBaseBranch_sets_defaults (b v : jstr) st st' (name message : string)
    files :
  truthy b = true → setBaseBranch b st = (Ok tt, st') → truthy v = false →
  getFileList v st' = getFileList b st' ∧
  commitFilesToBranch name files message JUndefined st' =
  commitFilesToBranch name files message b st'.
Proof.
  intros Hb H Hv. unfold setBaseBranch in H. rewrite Hb in H.
  unfold_M. injection H as <-. split.
  - unfold getFileList. unfold_M. simpl. unfold or_else. by rewrite Hv, Hb.
  - unfold commitFilesToBranch. unfold_M. simpl. by destruct b.
Qed.

End MoreStorageFacts.

(** ** On the reference model of the engine *)

Section MoreSimFacts.
Import SimGit.
Context `{P : Params}.
Implicit Types (st : State World) (wc : WorkCopy) (r : Remote).

(** *** Listings *)

Lemma listed_all_localName (l : list (string * string)) :
  map localName
      ((λ kv : string * string, "origin/" +:+ kv.1) <$>
       List.filter (λ _ : string * string, true) l)
  = l.*1.
Proof.
  induction l as [|[k v] l IH]; [done|].
  cbn [List.filter fmap list_fmap map fst]. rewrite localName_origin.
  f_equal. exact IH.
Qed.

(** X8 [getAllRenovateBranches] on the model: it resolves, to the names,
    each once, of exactly the remote-tracking branches that start with the
    prefix. *)
Theorem getAllRenovateBranches_sim (branchPrefix : string) st wc :
  copy st = Some wc →
  ∃ l st', getAllRenovateBranches branchPrefix st = (Ok l, st') ∧
    NoDup l ∧
    ∀ name, name ∈ l ↔
      is_Some (remotes wc !! name) ∧ startsWith name branchPrefix = true.
Proof.
  intros Hcp. unfold copy in Hcp.
  destruct (git st) as [d|] eqn:Hg; [|done]. simpl in Hcp.
  unfold getAllRenovateBranches.
  erewrite bind_run; [|by erewrite sim_call_run by done].
  unfold mret, M_ret. do 2 eexists. split; [done|].
  rewrite listed_all_localName. split.
  - apply NoDup_ListNoDup, List.NoDup_filter, NoDup_ListNoDup.
    apply NoDup_fst_map_to_list.
  - intros name. rewrite list_elem_of_In, filter_In, <- list_elem_of_In.
    rewrite list_elem_of_fmap. split.
    + intros [([k v] & -> & Hk%elem_of_map_to_list) Hs]. eauto.
    + intros [[v Hv] Hs]. split; [|done]. exists (name, v).
      split; [done|]. by apply elem_of_map_to_list.
Qed.

Lemma history_length os (n : nat) (s : string) :
  (length (history os n s) ≤ n)%nat.
Proof.
  revert s. induction n as [|n IH]; intros s; simpl; [lia|].
  destruct (os !! s) as [c|]; simpl; [|lia].
  destruct (parents c) as [|p ps]; simpl; [lia|]. specialize (IH p). lia.
Qed.

Lemma history_head os (n : nat) (s : string) c :
  os !! s = Some c → head (history os (S n) s) = Some (subject c).
Proof. cbn [history]. by intros ->. Qed.


(** *** Reading files *)

Lemma split_colon_app (rev file : string) :
  no_colon rev = true →
  split_colon ((rev +:+ ":") +:+ file) = Some (rev, file).
Proof.
  induction rev as [|c rev IH]; [done|].
  rewrite !append_cons. cbn [no_colon split_colon].
  destruct (decide (c = ":"%char)); [done|]. simpl.
  intros Hr. by rewrite (IH Hr).
Qed.

Lemma no_colon_origin (name : string) :
  no_colon name = true → no_colon ("origin/" +:+ name) = true.
Proof. done. Qed.

(** What [getFile] reads on the model. *)
Lemma getFile_run (filePath : string) (name : jstr) st wc :
  copy st = Some wc →
  no_colon (to_string (or_else name (baseBranch (config st)))) = true →
  (getFile filePath name st).1 =
  Ok match resolve_commit wc
             ("origin/" +:+ to_string (or_else name (baseBranch (config st))))
     with
     | Some (_, c) => tree c !! filePath
     | None => None
     end.
Proof.
  intros Hcp Hnc. unfold copy in Hcp.
  destruct (git st) as [d|] eqn:Hg; [|done]. simpl in Hcp.
  set (branch := or_else name (baseBranch (config st))) in *.
  unfold getFile. set (lookup := try_catch _ _).
  assert (Hlookup : ∀ s, config s = config st → git s = Some d →
    disk (world s) !! d = Some wc →
    (lookup s).1 = Ok match resolve_commit wc ("origin/" +:+ to_string branch)
                      with
                      | Some (_, c) => tree c !! filePath
                      | None => None
                      end).
  { intros s Hc Hgs Hds. subst lookup. unfold try_catch.
    rewrite (bind_run get_config _ s (config s) s) by done.
    rewrite Hc. fold branch. unfold mbind, M_bind.
    rewrite (sim_call_run _ s d wc Hgs Hds). cbn [step show].
    rewrite split_colon_app by by apply no_colon_origin. simpl.
    destruct (resolve_commit wc _) as [[x c]|]; simpl; [|done].
    by destruct (tree c !! filePath). }
  destruct (truthy name) eqn:Ht.
  - unfold mbind, M_bind.
    destruct (branchExists name st) as [res s1] eqn:Hb.
    rewrite branchExists_run, (sim_call_run _ st d wc Hg Hcp) in Hb.
    assert (branch = name) as Hbn by (unfold branch, or_else; by rewrite Ht).
    rewrite Hbn in *. simpl in Hb.
    destruct (resolve_commit wc ("origin/" +:+ to_string name))
      as [[x c]|] eqn:Hrev; simpl in Hb; injection Hb as <- <-; [|done].
    rewrite Hlookup; [done|done|done|apply lookup_insert_eq].
  - by apply Hlookup.
Qed.


(** *** What the methods leave alone *)

Lemma git_call_sim_cases {A} (c : call A) st (res : outcome A) st' :
  git_call c st = (res, st') →
  st' = st ∨
  (∃ d, git st = Some d ∧ disk (world st) !! d = None ∧ is_clone c = true ∧
        st' = after (Some (d, clone (origin (world st)))) (origin (world st))
                    (Called c) st) ∨
  (∃ d wc, git st = Some d ∧ disk (world st) !! d = Some wc ∧
     ((∃ e, res = Throw e ∧
            st' = after None (origin (world st)) (Called c) st) ∨
      (∃ a wc' r', res = Ok a ∧
         step c (clock (world st)) wc (origin (world st)) = Some (a, wc', r') ∧
         st' = after (Some (d, wc')) r' (Called c) st))) ∨
  (∃ d e, git st = Some d ∧ disk (world st) !! d = None ∧ res = Throw e ∧
          st' = after None (origin (world st)) (Called c) st).
Proof.
  destruct (git st) as [d|] eqn:Hg.
  - destruct (disk (world st) !! d) as [wc|] eqn:Hd.
    + rewrite (sim_call_run c st d wc Hg Hd).
      destruct (step _ _ _ _) as [[[a wc'] r']|] eqn:Hs; intros [= <- <-];
        right; right; left; exists d, wc; eauto 10.
    + unfold git_call, on_world. rewrite Hg. simpl. unfold exec. rewrite Hd.
      unfold after. rewrite Hg.
      destruct c; intros [= <- <-]; eauto 10.
  - unfold git_call. rewrite Hg. intros [= <- <-]. by left.
Qed.

Lemma keeps_repositories_git_call {A} (c : call A) :
  is_clone c = false → read_only_call c → keeps repositories (git_call c).
Proof.
  intros Hc Hro st res st' H. apply git_call_sim_cases in H
    as [->|[(d & _ & _ & Hcl & _)|[(d & wc & Hg & Hd & H)|(d & e & _ & _ & _ & ->)]]];
    [done|congruence| |done].
  destruct H as [(e & _ & ->)|(a & wc' & r' & _ & Hs & ->)]; [done|].
  apply Hro in Hs as [-> ->]. unfold repositories. simpl.
  by rewrite insert_id.
Qed.

Lemma keeps_remote_git_call {A} (c : call A) :
  local_call c → keeps remote (git_call c).
Proof.
  intros Hl st res st' H. apply git_call_sim_cases in H
    as [->|[(d & _ & _ & _ & ->)|[(d & wc & Hg & Hd & H)|(d & e & _ & _ & _ & ->)]]];
    [done|done| |done].
  destruct H as [(e & _ & ->)|(a & wc' & r' & _ & Hs & ->)]; [done|].
  by apply Hl in Hs as ->.
Qed.

Lemma keeps_remote_head_git_call {A} (b : string) (c : call A) :
  spares b c → keeps (remote_head b) (git_call c).
Proof.
  intros Hl st res st' H. apply git_call_sim_cases in H
    as [->|[(d & _ & _ & _ & ->)|[(d & wc & Hg & Hd & H)|(d & e & _ & _ & _ & ->)]]];
    [done|done| |done].
  destruct H as [(e & _ & ->)|(a & wc' & r' & _ & Hs & ->)]; [done|].
  by apply Hl in Hs.
Qed.

Lemma rejects_keeping_git_call {A} (c : call A) :
  rejects_keeping remote (git_call c).
Proof.
  intros st e st' H. apply git_call_sim_cases in H
    as [->|[(d & _ & _ & _ & ->)|[(d & wc & Hg & Hd & H)|(d & e' & _ & _ & _ & ->)]]];
    [done|done| |done].
  by destruct H as [(e' & _ & ->)|(a & wc' & r' & [=] & _)].
Qed.

Ltac solve_step :=
  let H := fresh "H" in
  intros ? ? ? ? ? ? H; cbn [step] in H;
  unfold only, raw, show, branch, push, push_delete in H;
  repeat (case_match; simplify_option_eq); try done.

Lemma read_only_show_branch (rev : string) :
  read_only_call (Raw ["show-branch"; rev]).
Proof. solve_step. Qed.

Lemma read_only_ls_tree (rev : string) :
  read_only_call (Raw ["ls-tree"; "-r"; "--name-only"; rev]).
Proof. solve_step. Qed.

Lemma read_only_Show args : read_only_call (Show args).
Proof. solve_step. Qed.

Lemma read_only_Revparse args : read_only_call (Revparse args).
Proof. solve_step. Qed.

Lemma read_only_Branch args : read_only_call (Branch args).
Proof. solve_step. Qed.

Lemma read_only_Log n : read_only_call (Log n).
Proof.
  intros now wc r a wc' r' H. cbn [step] in H.
  destruct (head_sha wc); by simplify_eq/=.
Qed.

#[local] Hint Resolve read_only_show_branch read_only_ls_tree read_only_Show
  read_only_Revparse read_only_Branch read_only_Log : keeps_db.
#[local] Hint Extern 1 (keeps repositories (git_call _)) =>
  apply keeps_repositories_git_call; [reflexivity|] : keeps_db.

(** X11 The queries are read-only on the model: whether they resolve or
    reject, the remote and every working copy (objects, branches, index,
    work tree) are afterwards what they were; only time has passed. *)
Theorem queries_read_only :
  (∀ name, keeps repositories (branchExists name)) ∧
  (∀ file name, keeps repositories (getFile file name)) ∧
  (∀ name, keeps repositories (getFileList name)) ∧
  (∀ name, keeps repositories (getBranchCommit name)) ∧
  (∀ name, keeps repositories (getBranchLastCommitTime name)) ∧
  (∀ name, keeps repositories (isBranchStale name)) ∧
  (∀ prefix, keeps repositories (getAllRenovateBranches prefix)) ∧
  keeps repositories getCommitMessages.
Proof.
  repeat split; intros;
    unfold branchExists, getFile, getFileList, getBranchCommit,
      getBranchLastCommitTime, isBranchStale, getAllRenovateBranches,
      getCommitMessages;
    eauto 40 with keeps_db.
Qed.

Lemma only_remote {A} (x : option WorkCopy) (a a' : A) r wc' r' :
  only x a r = Some (a', wc', r') → r' = r.
Proof. unfold only. destruct x; by intros [= _ _ <-]. Qed.

Ltac solve_local :=
  let H := fresh "H" in
  intros ? ? ? ? ? ? H; cbn [step] in H;
  repeat case_match; try done; by apply only_remote in H.

Lemma local_Reset mode : local_call (Reset mode).
Proof. solve_local. Qed.

Lemma local_Checkout args : local_call (Checkout args).
Proof. solve_local. Qed.

Lemma local_Add files : local_call (Add files).
Proof. solve_local. Qed.

Lemma local_Commit message : local_call (Commit message).
Proof. solve_local. Qed.

Lemma local_Merge args : local_call (Merge args).
Proof. solve_local. Qed.

Lemma local_DeleteLocalBranch name : local_call (DeleteLocalBranch name).
Proof. solve_local. Qed.

Lemma local_spares {A} (b : string) (c : call A) : local_call c → spares b c.
Proof. intros Hl now wc r a wc' r' H. by apply Hl in H as ->. Qed.

Lemma spares_Push (b name : string) (rest : list string) :
  name ≠ b → spares b (Push ("origin" :: name :: rest)).
Proof.
  intros Hne now wc r a wc' r' H. cbn [step] in H. unfold push in H.
  repeat (case_match; simplify_option_eq); try done;
    simpl; by rewrite lookup_insert_ne.
Qed.

Lemma spares_push_delete (b name : string) :
  name ≠ b → spares b (Raw ["push"; "--delete"; "origin"; name]).
Proof.
  intros Hne now wc r a wc' r' H. cbn [step] in H.
  unfold raw, push_delete in H.
  repeat (case_match; simplify_option_eq); try done;
    simpl; by rewrite lookup_delete_ne.
Qed.

Lemma keeps_writeFile {X} (p : Remote → X) (file : path) (text : string) tr :
  keeps (λ st, p (origin (world st))) (on_world (fs_writeFile file text) tr).
Proof.
  intros st res st'. unfold on_world. simpl. unfold writeFile.
  destruct (last file); [destruct (disk (world st) !! _)|];
    by intros [= <- <-].
Qed.

Lemma keeps_remote_write_files {X} (p : Remote → X) files :
  keeps (λ st, p (origin (world st))) (write_files files).
Proof.
  induction files as [|f files IH]; cbn [write_files].
  - by intros st res st' [= <- <-].
  - apply keeps_bind; [apply keeps_get_repoDir|]. intros d.
    apply keeps_bind; [apply keeps_writeFile|]. by intros _.
Qed.

#[local] Hint Resolve local_Reset local_Checkout local_Add local_Commit
  local_Merge local_DeleteLocalBranch local_spares spares_Push
  spares_push_delete : keeps_db.
#[local] Hint Extern 1 (keeps remote (git_call _)) =>
  apply keeps_remote_git_call : keeps_db.
#[local] Hint Extern 1 (keeps (remote_head _) (git_call _)) =>
  apply keeps_remote_head_git_call : keeps_db.
#[local] Hint Extern 1 (keeps remote (write_files ?fs)) =>
  apply (keeps_remote_write_files (λ r, r) fs) : keeps_db.
#[local] Hint Extern 1 (keeps (remote_head ?b) (write_files ?fs)) =>
  apply (keeps_remote_write_files (λ r, r_heads r !! b) fs) : keeps_db.

Lemma bind_cases {A B} (m : M World A) (f : A → M World B) st
    (res : outcome B) st' :
  (m ≫= f) st = (res, st') →
  (∃ e, res = Throw e ∧ m st = (Throw e, st')) ∨
  (∃ a s, m st = (Ok a, s) ∧ f a s = (res, st')).
Proof.
  unfold mbind, M_bind. destruct (m st) as [[a|e] s].
  - eauto.
  - intros [= <- <-]. eauto.
Qed.


Lemma rejects_keeping_bind {X A B} (p : State World → X) (m : M World A)
    (f : A → M World B) :
  keeps p m → (∀ a, rejects_keeping p (f a)) → rejects_keeping p (m ≫= f).
Proof.
  intros Hm Hf st e st' H.
  apply bind_cases in H as [(e' & _ & H)|(a & s & H1 & H)].
  - by apply Hm in H.
  - apply Hf in H. apply Hm in H1. congruence.
Qed.

(** X13 A mutating method that rejects has changed nothing on the remote:
    the push is the last engine call of [createBranch], [mergeBranch] and
    [commitFilesToBranch], and [deleteBranch] rejects only when the remote
    deletion does. *)
Theorem rejected_mutators_leave_remote :
  (∀ name sha, rejects_keeping remote (createBranch name sha)) ∧
  (∀ name, rejects_keeping remote (mergeBranch name)) ∧
  (∀ name files message parent,
     rejects_keeping remote (commitFilesToBranch name files message parent)) ∧
  (∀ name, rejects_keeping remote (deleteBranch name)).
Proof.
  split; [|split; [|split]]; intros.
  - unfold createBranch.
    repeat (apply rejects_keeping_bind; [eauto 20 with keeps_db|intros ?]).
    apply rejects_keeping_git_call.
  - unfold mergeBranch.
    repeat (apply rejects_keeping_bind; [eauto 20 with keeps_db|intros ?]).
    apply rejects_keeping_git_call.
  - unfold commitFilesToBranch.
    repeat (apply rejects_keeping_bind; [eauto 20 with keeps_db|intros ?]).
    apply rejects_keeping_git_call.
  - unfold deleteBranch. intros st e st' H.
    apply bind_cases in H as [(e' & _ & H)|(a & s & _ & H)].
    + by apply rejects_keeping_git_call in H.
    + unfold try_catch, mret, M_ret in H.
      by destruct (git_call _ s) as [[]].
Qed.

(** *** Creating a branch *)

(** [createBranch] run on the model, when the checked-out commit and the
    start point exist. *)
Lemma createBranch_run (b rev : string) st d wc wc0 (s : string) c :
  git st = Some d → disk (world st) !! d = Some wc →
  reset_hard wc = Some wc0 → resolve_commit wc0 rev = Some (s, c) →
  let wcb := with_refs (<[b := s]> (heads wc0)) (remotes wc0) (OnBranch b)
                       (switch_to c wc0) in
  ∃ st', createBranch b rev st = (Ok tt, st') ∧
    git st' = Some d ∧
    disk (world st') !! d
      = Some (with_refs (heads wcb) (<[b := s]> (remotes wcb)) (HEAD wcb) wcb) ∧
    origin (world st') = with_push b s wcb (origin (world st)).
Proof.
  intros Hg Hd Hr Hrev wcb. unfold createBranch.
  erewrite bind_run;
    [|by erewrite sim_call_run by done; cbn [step]; rewrite decide_True by done;
         unfold only; rewrite Hr].
  erewrite bind_run;
    [|by erewrite sim_call_run by (done || apply lookup_insert_eq);
         cbn [step]; rewrite decide_True by done;
         unfold only, checkout_B; rewrite Hrev].
  erewrite sim_call_run; [|done|apply lookup_insert_eq].
  cbn [step]. rewrite decide_True by done. unfold push. simpl.
  rewrite lookup_insert_eq. simpl.
  eexists. split; [done|]. simpl. split; [done|].
  split; [apply lookup_insert_eq|done].
Qed.

Lemma union_difference_absorb (t y : gmap string string) :
  t ∪ ((t ∪ y) ∖ t) = t ∪ y.
Proof.
  apply map_eq. intros k. rewrite !lookup_union, lookup_difference.
  destruct (t !! k) eqn:Ht.
  - by destruct (y !! k).
  - rewrite lookup_union, Ht. by destruct (y !! k).
Qed.

(** X14 [createBranch] is idempotent on the model: once it has succeeded
    for a commit identifier, the same call again succeeds and leaves the
    working copy and the remote exactly as the first call did. *)
Theorem createBranch_again (b sha : string) st st1 :
  is_sha sha = true →
  createBranch b sha st = (Ok tt, st1) →
  ∃ st2, createBranch b sha st1 = (Ok tt, st2) ∧
         copy st2 = copy st1 ∧ remote st2 = remote st1.
Proof.
  intros Hsha H. pose proof H as H'.
  apply createBranch_Ok in H'
    as (wc & wc0 & s & c & Hcp & Hr & Hrev & _).
  unfold copy in Hcp. destruct (git st) as [d|] eqn:Hg; [|done].
  simpl in Hcp.
  destruct (createBranch_run b sha st d wc wc0 s c Hg Hcp Hr Hrev)
    as (st1' & Hrun & Hg1 & Hd1 & Ho1).
  assert (st1' = st1) as -> by congruence. clear Hrun.
  assert (s = sha ∧ objects wc0 !! sha = Some c) as [-> Hobj].
  { unfold resolve_commit in Hrev. rewrite resolve_sha in Hrev by done.
    destruct (objects wc0 !! sha) eqn:Ho; simpl in Hrev; [|done].
    rewrite Ho in Hrev. by simplify_eq/=. }
  set (wcb := with_refs (<[b:=sha]> (heads wc0)) (remotes wc0) (OnBranch b)
                        (switch_to c wc0)) in *.
  set (wc1 := with_refs (heads wcb) (<[b:=sha]> (remotes wcb)) (HEAD wcb) wcb)
    in *.
  assert (Hr1 : reset_hard wc1 = Some (switch_to c wc1)).
  { unfold reset_hard, head_sha. simpl. rewrite lookup_insert_eq. simpl.
    by rewrite Hobj. }
  assert (Hrev1 : resolve_commit (switch_to c wc1) sha = Some (sha, c)).
  { unfold resolve_commit. rewrite resolve_sha by done. simpl.
    rewrite Hobj. simpl. by rewrite Hobj. }
  destruct (createBranch_run b sha st1 d wc1 _ sha c Hg1 Hd1 Hr1 Hrev1)
    as (st2 & Hrun & Hg2 & Hd2 & Ho2).
  exists st2. split; [done|]. split.
  - unfold copy. rewrite Hg1, Hg2. simpl. rewrite Hd1, Hd2. f_equal.
    unfold wc1, wcb, with_refs, switch_to, with_files. simpl. f_equal.
    + by rewrite insert_insert_eq.
    + by rewrite insert_insert_eq.
    + by rewrite !union_difference_absorb.
  - unfold remote. rewrite Ho2, Ho1. unfold with_push. simpl. f_equal.
    + apply map_eq. intros k. rewrite !lookup_union.
      by destruct (objects wc0 !! k), (r_objects (origin (world st)) !! k).
    + by rewrite insert_insert_eq.
Qed.

(** X15 [createBranch] then [branchExists]: once [createBranch] has
    succeeded, whatever the start point, the branch exists. *)
Theorem createBranch_then_branchExists (b rev : string) st st1 :
  createBranch b rev st = (Ok tt, st1) →
  (branchExists (JStr b) st1).1 = Ok true.
Proof.
  intros H. apply createBranch_Ok in H
    as (wc & wc0 & s & c & Hcp & Hr & Hrev & _ & _ & Hcp1 & _).
  unfold copy in Hcp1. destruct (git st1) as [d|] eqn:Hg1; [|done].
  simpl in Hcp1. rewrite (branchExists_sim _ st1 d _ Hg1 Hcp1).
  unfold resolve_commit. rewrite resolve_origin. simpl.
  rewrite lookup_insert_eq. simpl.
  unfold resolve_commit in Hrev.
  destruct (resolve wc0 rev); simpl in Hrev; [|done].
  destruct (objects wc0 !! _) eqn:Ho; simpl in Hrev; [|done].
  injection Hrev as <- <-. by rewrite Ho.
Qed.

(** *** Committing, then reading *)

(** As [commitFilesToBranch_tree], for the remote-tracking ref in the
    working copy. *)
Lemma commitFilesToBranch_copy (b : string) files (message : string)
    (parentBranch : jstr) st st1 :
  initialised st →
  commitFilesToBranch b files message parentBranch st = (Ok tt, st1) →
  ∃ t0, tracking_tree st (parent_of st parentBranch) = Some t0 ∧
        tracking_tree st1 b = Some (overlay files t0).
Proof.
  intros (d0 & Hg0 & Hr0) H. unfold commitFilesToBranch in H.
  assert (Hdir : repoDir st = git st) by congruence.
  step H parent s0 H0.
  assert (s0 = st ∧ to_string parent = parent_of st parentBranch) as [-> Hp].
  { unfold parent_of. destruct parentBranch; unfold_M; by simplify_eq. }
  clear H0. rewrite Hp in H. clear Hp parent.
  step H u1 s1 Ha. step H u2 s2 Hb. step H u3 s3 Hw. step H u4 s4 Hd.
  step H u5 s5 He.
  apply sim_call in Ha
    as (wc & wca & ra & Hcp & Ha & Hcpa & Hra & Hca & Hga & Hda); [|done].
  apply sim_call in Hb
    as (wc' & wcb & rb & Hcp' & Hb & Hcpb & Hrb & Hcb & Hgb & Hdb); [|done].
  rewrite Hcpa in Hcp'. injection Hcp' as <-.
  (* the files are written into the work tree of the same clone *)
  assert (∃ d, git s2 = Some d ∧ repoDir s2 = Some d ∧
               disk (world s2) !! d = Some wcb) as (d & Hg2 & Hr2 & Hd2).
  { unfold copy in Hcpb. destruct (git s2) as [d|] eqn:Hg2; [|done].
    exists d. split; [done|]. split; [congruence|done]. }
  destruct (write_files_sim files s2 d wcb Hr2 Hg2 Hd2)
    as (s3' & Hw' & Hc3 & Hg3 & Hr3 & Ho3 & Hk3 & Hd3).
  assert (s3 = s3') as -> by congruence. clear Hw Hw'.
  apply sim_call in Hd
    as (wcc & wcd & rd & Hcpc & Hd & Hcpd & Hrd & Hcd & Hgd & Hdd); [|done].
  assert (wcc = with_files (index wcb) (overlay files (worktree wcb)) wcb)
    as ->.
  { unfold copy in Hcpc. rewrite Hg3, Hg2 in Hcpc. simpl in Hcpc. congruence. }
  apply sim_call in He
    as (wcd' & wce & re & Hcpd' & He & Hcpe & Hre & Hce & Hge & Hde); [|done].
  rewrite Hcpd in Hcpd'. injection Hcpd' as <-.
  apply sim_call in H
    as (wce' & wc1 & r1 & Hcpe' & H & Hcp1 & Hr1 & Hc1 & Hg1 & Hd1); [|done].
  rewrite Hcpe in Hcpe'. injection Hcpe' as <-.
  simpl in Ha, Hb, Hd, He, H. unfold only in *.
  (* reset, then checkout of the parent's commit [pc] *)
  destruct (reset_hard wc) as [wc0|] eqn:Hreset; simpl in Ha; [|done].
  assert (wca = wc0 ∧ ra = origin (world st)) as [-> ->] by (by simplify_eq).
  clear Ha. unfold checkout_B in Hb.
  destruct (resolve_commit wc0 _) as [[ps pc]|] eqn:Hparent; simpl in Hb;
    [|done].
  set (wc2 := with_refs (<[b:=ps]> (heads wc0)) (remotes wc0) (OnBranch b)
                        (switch_to pc wc0)) in *.
  assert (wcb = wc2 ∧ rb = origin (world s1)) as [-> ->] by (by simplify_eq).
  clear Hb.
  (* the index after [add] *)
  destruct (add _ _) as [wc4|] eqn:Hadd; simpl in Hd; [|done].
  assert (wcd = wc4 ∧ rd = origin (world s3')) as [-> ->] by (by simplify_eq).
  clear Hd. apply add_stage in Hadd. simpl in Hadd.
  rewrite stage_overlay in Hadd.
  assert (Hps : objects wc0 !! ps = Some pc).
  { unfold resolve_commit in Hparent. simplify_option_eq. done. }
  exists (tree pc). split.
  { unfold tracking_tree. rewrite Hcp. simpl.
    unfold resolve_commit in *.
    rewrite <- (resolve_reset _ _ _ Hreset).
    destruct (reset_hard_refs _ _ Hreset) as (<- & _).
    by rewrite Hparent. }
  (* commit and push *)
  assert (∃ s c, heads wce !! b = Some s ∧ objects wce !! s = Some c ∧
                 tree c = overlay files (tree pc)) as (s & c & Hs & Hc & Ht).
  { unfold commit, head_sha in He. subst wc4. simpl in He.
    rewrite lookup_insert_eq in He. simpl in He.
    rewrite Hps in He. simpl in He.
    destruct (decide (overlay files (tree pc) = tree pc)) as [Heq|Hne];
      simpl in He.
    - exists ps, pc. assert (wce = _) as -> by (by simplify_eq). simpl.
      by rewrite lookup_insert_eq.
    - eexists _, _. assert (wce = _) as -> by (by simplify_eq).
      unfold advance. simpl. rewrite !lookup_insert_eq. done. }
  unfold push in H. rewrite Hs in H. simpl in H.
  assert (wc1 = with_refs (heads wce) (<[b:=s]> (remotes wce)) (HEAD wce) wce)
    as -> by (by simplify_eq).
  unfold tracking_tree. rewrite Hcp1. simpl.
  unfold resolve_commit. rewrite resolve_origin. simpl.
  rewrite lookup_insert_eq. simpl. rewrite Hc. simpl. by rewrite Ht.
Qed.

Lemma overlay_NoDup files (t : gmap string string) f :
  NoDup (map file_name files) → f ∈ files →
  overlay files t !! file_name f = Some (contents f).
Proof.
  induction files as [|x files IH] using rev_ind; [by intros _ ?%elem_of_nil|].
  rewrite map_app, overlay_snoc. simpl.
  intros [Hnd [Hx _]]%NoDup_app [Hf|Hf]%elem_of_app.
  - rewrite lookup_insert_ne; [by apply IH|].
    intros Heq. apply (Hx (file_name f)).
    + apply list_elem_of_In, in_map, list_elem_of_In, Hf.
    + rewrite <- Heq. apply list_elem_of_here.
  - apply list_elem_of_singleton in Hf as ->. apply lookup_insert_eq.
Qed.


(** *** Deleting and merging *)


(** Case on the first option a bind in [H] waits for. *)
Ltac obind H :=
  match type of H with
  | context [?x ≫= _] =>
      let E := fresh "E" in destruct x eqn:E; simpl in H; [|done]
  end.


(** *** The listing of a branch *)

Lemma tree_paths_elem (t : gmap string string) (p : string) :
  p ∈ tree_paths t ↔ is_Some (t !! p).
Proof.
  unfold tree_paths. rewrite list_elem_of_fmap. split.
  - intros ([k v] & -> & Hkv). apply elem_of_map_to_list in Hkv. by exists v.
  - intros [v Hv]. exists (p, v). split; [done|].
    by apply elem_of_map_to_list.
Qed.


(** *** [initRepo] on the model *)

Lemma sim_clone_run (u t : string) (o : list string) st d :
  git st = Some d → disk (world st) !! d = None →
  git_call (Clone u t o) st =
  (Ok tt, after (Some (d, clone (origin (world st)))) (origin (world st))
                (Called (Clone u t o)) st).
Proof.
  intros Hg Hd. unfold git_call, on_world. rewrite Hg. simpl. unfold exec.
  rewrite Hd. unfold after. by rewrite Hg.
Qed.

(** Run the engine call a sequence starts with, on the working copy at
    hand. *)
Ltac run_call :=
  erewrite bind_run;
  [|erewrite sim_call_run;
    [simpl; reflexivity|done|first [eassumption|apply lookup_insert_eq]]].

(** The end of [initRepo], from the author settings on, in a session
    whose handle has a working copy. *)
Lemma initRepo_settles (args : Config) st (d : path) wc :
  config st = args → git st = Some d → disk (world st) !! d = Some wc →
  truthy (baseBranch args) = true ∨ is_Some (origin_HEAD wc) →
  ∃ st',
    (match gitAuthor args with
     | Some a =>
         git_call (Raw ["config"; "user.name"; name a]);;
         git_call (Raw ["config"; "user.email"; address a]);;
         git_call (Raw ["config"; "commit.gpgsign"; "false"]);;
         mret tt
     | None => mret tt
     end;;
     cfg ← get_config;
     b ← (if truthy (baseBranch cfg) then mret (baseBranch cfg)
          else out ← git_call (Raw ["symbolic-ref"; "refs/remotes/origin/HEAD"]);
               mret (JStr (trim (replace "refs/remotes/origin/" "" out))));
     cfg' ← get_config;
     set_config (with_baseBranch b cfg')) st = (Ok tt, st') ∧
    git st' = Some d ∧ repoDir st' = repoDir st ∧
    origin (world st') = origin (world st) ∧
    disk (world st') !! d = Some (with_author (gitAuthor args) wc) ∧
    config st' =
      with_baseBranch
        (if truthy (baseBranch args) then baseBranch args
         else JStr (trim (default "" (origin_HEAD wc)))) args ∧
    ∃ rest, trace st' = trace st ++ rest ∧
            Forall (λ c, ∃ a, c = Called (Raw a)) rest.
Proof.
  intros Hc Hg Hd Hbase.
  assert (Hauthor : ∃ s1,
    (match gitAuthor args with
     | Some a =>
         git_call (Raw ["config"; "user.name"; name a]);;
         git_call (Raw ["config"; "user.email"; address a]);;
         git_call (Raw ["config"; "commit.gpgsign"; "false"]);;
         mret tt
     | None => mret tt
     end) st = (Ok tt, s1) ∧
    config s1 = args ∧ git s1 = Some d ∧ repoDir s1 = repoDir st ∧
    origin (world s1) = origin (world st) ∧
    disk (world s1) !! d = Some (with_author (gitAuthor args) wc) ∧
    ∃ rest, trace s1 = trace st ++ rest ∧
            Forall (λ c, ∃ a, c = Called (Raw a)) rest).
  { destruct (gitAuthor args) as [a|].
    - eexists. split; [do 3 run_call; done|]. simpl.
      do 4 (split; [done|]). split; [apply lookup_insert_eq|].
      eexists [_; _; _]. rewrite <- !app_assoc. simpl.
      split; [done|]. repeat constructor; eauto.
    - exists st. do 6 (split; [done|]). exists [].
      by rewrite app_nil_r. }
  destruct Hauthor as (s1 & Hs1 & Hc1 & Hg1 & Hr1 & Ho1 & Hd1 & r1 & Ht1 & Hf1).
  erewrite bind_run; [|exact Hs1].
  rewrite (bind_run get_config _ s1 (config s1) s1) by done.
  rewrite Hc1.
  destruct (truthy (baseBranch args)) eqn:Ht.
  - eexists. split; [done|]. simpl. rewrite Hc1.
    do 5 (split; [done|]). by exists r1.
  - destruct Hbase as [|[h Hh]]; [done|].
    eexists. split.
    + erewrite bind_run; [done|].
      erewrite bind_run; [done|].
      rewrite (sim_call_run _ s1 d _ Hg1 Hd1). simpl.
      replace (origin_HEAD (with_author (gitAuthor args) wc))
        with (Some h) by (by destruct (gitAuthor args)).
      done.
    + simpl. rewrite Hc1, Hh, Ho1, Hg1, Hr1. simpl.
      rewrite replace_prefix, trim_line.
      do 3 (split; [done|]). split; [by rewrite lookup_insert_eq|].
      split; [done|]. eexists (r1 ++ [_]).
      rewrite Ht1, <- app_assoc. split; [done|].
      apply Forall_app. split; [done|]. repeat constructor; eauto.
Qed.

Lemma with_author_refs (a : option Author) wc :
  objects (with_author a wc) = objects wc ∧
  heads (with_author a wc) = heads wc ∧
  remotes (with_author a wc) = remotes wc ∧
  HEAD (with_author a wc) = HEAD wc ∧
  index (with_author a wc) = index wc ∧
  worktree (with_author a wc) = worktree wc.
Proof. by destruct a. Qed.


Lemma filter_union_own (r m : gmap string string) :
  filter (λ kv : string * string, is_Some (r !! kv.1)) (r ∪ m) = r.
Proof.
  apply map_eq. intros k. rewrite map_lookup_filter, lookup_union.
  destruct (r !! k) as [x|] eqn:Hr; simpl.
  - rewrite union_Some_l. simpl. rewrite option_guard_True; [done|].
    simpl. by rewrite Hr.
  - destruct (m !! k) as [y|]; simpl; [|done].
    rewrite option_guard_False; [done|]. simpl. rewrite Hr. by intros [? ?].
Qed.


(** *** The time of the last commit *)


End MoreSimFacts.

(** ** The further properties at the concrete session *)

Section MoreWitnesses.
Import SimGit Scenario.

Lemma getFileList_entries_listable_witness :
  Forall (λ p, listable p = true) ["README.md"; "package.json"].
Proof.
  apply (getFileList_entries_listable (RT := runtime (H := toy))
           (JStr "master") st1 _ (run (getFileList (JStr "master")) st1)).
  vm_compute. reflexivity.
Defined.

Lemma getBranchCommit_trimmed_witness : trimmed sha_a.
Proof.
  apply (getBranchCommit_trimmed (RT := runtime (H := toy)) "master" st1
           sha_a (run (getBranchCommit "master") st1)).
  vm_compute. reflexivity.
Defined.

Lemma methods_without_handle_witness :
  branchExists (JStr "master") st0 = (Ok false, st0) ∧
  getFile "package.json" (JStr "master") st0 = (Ok None, st0) ∧
  getFileList (JStr "master") st0 = (Ok [], st0) ∧
  getBranchLastCommitTime "renovate/x" st0
    = (Ok (mkDate (Some (Date_now (world st0)))), st0) ∧
  getBranchCommit "renovate/x" st0 = (Throw (TypeError "git"), st0) ∧
  getCommitMessages st0 = (Throw (TypeError "git"), st0) ∧
  getAllRenovateBranches "renovate/" st0 = (Throw (TypeError "git"), st0) ∧
  isBranchStale "renovate/x" st0 = (Throw (TypeError "git"), st0) ∧
  createBranch "renovate/x" sha_a st0 = (Throw (TypeError "git"), st0) ∧
  deleteBranch "renovate/x" st0 = (Throw (TypeError "git"), st0) ∧
  mergeBranch "renovate/x" st0 = (Throw (TypeError "git"), st0) ∧
  commitFilesToBranch "renovate/x" files0 "Update dependencies"
                      (JStr "master") st0
    = (Throw (TypeError "git"), st0).
Proof.
  apply (methods_without_handle (RT := runtime (H := toy)) st0 "renovate/x"
           (JStr "master") "package.json" "renovate/" sha_a
           "Update dependencies" files0).
  reflexivity.
Defined.

Lemma initRepo_rejects_bad_path_witness :
  initRepo (with_baseBranch (JStr "master") empty_config) st0 =
  (Throw (TypeError "path"),
   {| config := with_baseBranch (JStr "master") empty_config;
      git := None; repoDir := None; world := world0; trace := [] |}).
Proof.
  apply (initRepo_rejects_bad_path (RT := runtime (H := toy))
           (with_baseBranch (JStr "master") empty_config) st0).
  reflexivity.
Defined.

Lemma initRepo_clones_without_copy_witness :
  repoDir st1 = Some dir0 ∧ git st1 = Some dir0 ∧
  ∃ rest,
    trace st1 = trace st0 ++
      Called (Clone (to_string (url args0)) "."
                    ["--depth=2"; "--no-single-branch"]) :: rest ∧
    Forall (λ c, ∃ a, c = Called (Raw a)) rest.
Proof.
  apply (initRepo_clones_without_copy (RT := runtime (H := toy)) args0 st0
           st1 dir0).
  - vm_compute. reflexivity.
  - left. reflexivity.
  - vm_compute. reflexivity.
Defined.

Lemma getAllRenovateBranches_sim_witness :
  ∃ l st', getAllRenovateBranches "renovate/" st5 = (Ok l, st') ∧
    NoDup l ∧
    ∀ name, name ∈ l ↔
      is_Some (remotes (copy_of st5) !! name) ∧
      startsWith name "renovate/" = true.
Proof.
  apply (getAllRenovateBranches_sim (P := toy) "renovate/" st5 (copy_of st5)).
  vm_compute. reflexivity.
Defined.




Lemma rejected_mutators_leave_remote_witness :
  remote (run (deleteBranch "renovate/y") st3) = remote st3.
Proof.
  apply (proj2 (proj2 (proj2 (rejected_mutators_leave_remote (P := toy))))
           "renovate/y" st3 (Failure "git")).
  vm_compute. reflexivity.
Defined.

Lemma createBranch_again_witness :
  ∃ st', createBranch "renovate/x" sha_a st2 = (Ok tt, st') ∧
         copy st' = copy st2 ∧ remote st' = remote st2.
Proof.
  apply (createBranch_again (P := toy) "renovate/x" sha_a st1 st2).
  - vm_compute. reflexivity.
  - vm_compute. reflexivity.
Defined.

Lemma createBranch_then_branchExists_witness :
  (branchExists (JStr "renovate/x") st2).1 = Ok true.
Proof.
  apply (createBranch_then_branchExists (P := toy) "renovate/x" sha_a st1
           st2).
  vm_compute. reflexivity.
Defined.







Lemma setBaseBranch_sets_defaults_witness :
  getFileList JUndefined (run (setBaseBranch (JStr "next")) st1) =
  getFileList (JStr "next") (run (setBaseBranch (JStr "next")) st1) ∧
  commitFilesToBranch "renovate/x" files0 "Update dependencies" JUndefined
                      (run (setBaseBranch (JStr "next")) st1) =
  commitFilesToBranch "renovate/x" files0 "Update dependencies" (JStr "next")
                      (run (setBaseBranch (JStr "next")) st1).
Proof.
  apply (setBaseBranch_sets_defaults (RT := runtime (H := toy)) (JStr "next")
           JUndefined st1 (run (setBaseBranch (JStr "next")) st1)
           "renovate/x" "Update dependencies" files0).
  - reflexivity.
  - vm_compute. reflexivity.
  - reflexivity.
Defined.


End MoreWitnesses.
